(** * godub: audio segments and silence detection

    A shallow embedding of [segment.go], [silence.go] and the concurrent
    silence detector, with the properties of the specification stated over
    it.  Go's [int], [int64], [uint16] and [uint32] are integers of [Z];
    [float64] and [float32] are IEEE 754 binary floats ([spec_float],
    computed with round-to-nearest-even); [[]byte] is [list byte].  A Go
    function that returns [(T, error)] returns an [outcome T] here, which
    also records a run-time panic. *)

From Stdlib Require Import Strings.String Strings.Byte.
From Stdlib Require Import ZArith List Bool Lia.
From Stdlib Require Import Permutation.
From Stdlib Require Import Floats.SpecFloat.
Import ListNotations.
Open Scope Z_scope.

(** ** Machine integers *)

Definition wrap64 (z : Z) : Z := (z + 2 ^ 63) mod 2 ^ 64 - 2 ^ 63.
Definition wrap_u16 (z : Z) : Z := z mod 2 ^ 16.
Definition wrap_u32 (z : Z) : Z := z mod 2 ^ 32.

Definition byte_to_Z (b : byte) : Z := Z.of_N (Byte.to_N b).
Definition byte_of_Z (z : Z) : byte :=
  match Byte.of_N (Z.to_N (z mod 256)) with
  | Some b => b
  | None => x00
  end.

(** ** float64 *)

Module F64.

Definition t := spec_float.
Definition prec := 53.
Definition emax := 1024.

(** [float64(n)] of an integer. *)
Definition of_Z (z : Z) : t := binary_normalize prec emax z 0 false.
Definition zero : t := S754_zero false.
Definition one : t := of_Z 1.
Definition mul : t -> t -> t := SFmul prec emax.
Definition div : t -> t -> t := SFdiv prec emax.
Definition sub : t -> t -> t := SFsub prec emax.
Definition sqrt : t -> t := SFsqrt prec emax.
Definition eqb : t -> t -> bool := SFeqb.
Definition ltb : t -> t -> bool := SFltb.
Definition leb : t -> t -> bool := SFleb.

(** [math.Pow(2, n)] for an integer [0 <= n]: the power itself, or +Inf. *)
Definition pow2 (n : Z) : t := binary_normalize prec emax 1 n false.

(** [math.Round]: the nearest integer, halves away from zero. *)
Definition round (x : t) : t :=
  match x with
  | S754_finite s m e =>
      if 0 <=? e then x
      else
        let d := 2 ^ (- e) in
        let q := Z.pos m / d in
        let r := Z.pos m mod d in
        let q' := if d <=? 2 * r then q + 1 else q in
        binary_normalize prec emax (if s then - q' else q') 0 s
  | _ => x
  end.

(** [int(x)] and [int64(x)]: truncation toward zero.  What Go leaves to the
    implementation (NaN, infinities, values out of range) is amd64's
    answer, the smallest int64. *)
Definition to_int (x : t) : Z :=
  match x with
  | S754_zero _ => 0
  | S754_finite s m e =>
      let v := if 0 <=? e then Z.pos m * 2 ^ e else Z.pos m / 2 ^ (- e) in
      let v := if s then - v else v in
      if (- 2 ^ 63 <=? v) && (v <? 2 ^ 63) then v else - 2 ^ 63
  | _ => - 2 ^ 63
  end.

End F64.

(** ** float32, for the timings of SplitOnSilence *)

Module F32.

Definition t := spec_float.
Definition prec := 24.
Definition emax := 128.
Definition of_Z (z : Z) : t := binary_normalize prec emax z 0 false.
Definition div : t -> t -> t := SFdiv prec emax.

End F32.

(** ** The sample arithmetic package

    [audioop] is a package of this repository whose source is not among the
    files at hand: the segment code is written against its interface, and
    [audioop_model] below gives the functions as the specification
    describes them. *)

Module audioop.

Inductive error := InvalidWidth | MalformedBuffer | LengthMismatch.

(** Go's [(value, err)]: the value comes back with the error, and a caller
    may read either. *)
Definition result (A : Type) : Type := (A * option error)%type.

Record Package := {
  Mul : list byte -> Z -> F64.t -> result (list byte);
  Add : list byte -> list byte -> Z -> result (list byte);
  Bias : list byte -> Z -> Z -> result (list byte);
  Reverse : list byte -> Z -> result (list byte);
  Max : list byte -> Z -> result Z;
  RMS : list byte -> Z -> result F64.t;
  Lin2Lin : list byte -> Z -> Z -> result (list byte);
  ToStereo : list byte -> Z -> F64.t -> F64.t -> result (list byte);
  ToMono : list byte -> Z -> F64.t -> F64.t -> result (list byte);
  (** [Ratecv(cp, size, nchannels, inrate, outrate, weightA, weightB)];
      the state it also returns is dropped by its only caller. *)
  Ratecv : list byte -> Z -> Z -> Z -> Z -> Z -> Z -> result (list byte)
}.

End audioop.

Module audioop_model.

Import audioop.

(** Modelled from the spec: the parameter check of the arithmetic layer
    (package audioop, not under src/), "failing with an InvalidWidth /
    MalformedBuffer error when width is not 1, 2 or 4 or the length is not
    a multiple of the width". *)
Definition checkParameters (len size : Z) : option error :=
  if negb ((size =? 1) || (size =? 2) || (size =? 4)) then Some InvalidWidth
  else if negb (len mod size =? 0) then Some MalformedBuffer
  else None.

Fixpoint le_unsigned (bs : list byte) : Z :=
  match bs with
  | [] => 0
  | b :: rest => byte_to_Z b + 256 * le_unsigned rest
  end.

Definition to_signed (w : Z) (u : Z) : Z :=
  if u <? 2 ^ (8 * w - 1) then u else u - 2 ^ (8 * w).

Fixpoint le_bytes (w : nat) (v : Z) : list byte :=
  match w with
  | O => []
  | S w' => byte_of_Z (v mod 256) :: le_bytes w' (v / 256)
  end.

(** Modelled from the spec: a sample is a signed little-endian integer of
    [w] bytes; [getSamples n w bs] reads the first [n] of them. *)
Fixpoint getSamples (n : nat) (w : nat) (bs : list byte) : list Z :=
  match n with
  | O => []
  | S n' =>
      to_signed (Z.of_nat w) (le_unsigned (firstn w bs))
        :: getSamples n' w (skipn w bs)
  end.

Definition samples (bs : list byte) (w : Z) : list Z :=
  getSamples (Z.to_nat (Z.of_nat (length bs) / w)) (Z.to_nat w) bs.

Definition putSamples (w : Z) (vs : list Z) : list byte :=
  flat_map (le_bytes (Z.to_nat w)) vs.

Definition maxval (w : Z) : Z := 2 ^ (8 * w - 1) - 1.
Definition minval (w : Z) : Z := - 2 ^ (8 * w - 1).

(** Modelled from the spec: "saturate (clamp) results to this range". *)
Definition saturate (w : Z) (v : Z) : Z :=
  if maxval w <? v then maxval w else if v <? minval w then minval w else v.

(** Modelled from the spec: "scale ... by factor, round to nearest
    integer". *)
Definition scale (s : Z) (f : F64.t) : Z :=
  F64.to_int (F64.round (F64.mul (F64.of_Z s) f)).

Definition checked {A : Type} (len size : Z) (nil : A) (v : A) : result A :=
  match checkParameters len size with
  | Some e => (nil, Some e)
  | None => (v, None)
  end.

Definition blen (bs : list byte) : Z := Z.of_nat (length bs).

(** Modelled from the spec: Mul, "scale every sample by factor, round to
    nearest integer, saturate to width range". *)
Definition Mul (cp : list byte) (size : Z) (factor : F64.t) : result (list byte) :=
  checked (blen cp) size []
    (putSamples size (map (fun s => saturate size (scale s factor)) (samples cp size))).

(** Modelled from the spec: Add, "per-sample sum, saturating; fails if the
    lengths differ". *)
Definition Add (cp1 cp2 : list byte) (size : Z) : result (list byte) :=
  match checkParameters (blen cp1) size with
  | Some e => ([], Some e)
  | None =>
      if negb (blen cp1 =? blen cp2) then ([], Some LengthMismatch)
      else
        (putSamples size
           (map (fun p => saturate size (fst p + snd p))
              (combine (samples cp1 size) (samples cp2 size))), None)
  end.

(** Modelled from the spec: Bias, "per-sample addition modulo 2^(8 width)
    (wraps, does not saturate)". *)
Definition Bias (cp : list byte) (size : Z) (bias : Z) : result (list byte) :=
  checked (blen cp) size []
    (putSamples size (map (fun s => s + bias) (samples cp size))).

(** Modelled from the spec: Reverse, "reverses frame order (groups of
    width bytes), not individual byte order inside a sample". *)
Definition Reverse (cp : list byte) (size : Z) : result (list byte) :=
  checked (blen cp) size [] (putSamples size (rev (samples cp size))).

(** Modelled from the spec: Max, "maximum absolute sample magnitude; empty
    buffer yields 0". *)
Definition Max (cp : list byte) (size : Z) : result Z :=
  checked (blen cp) size 0
    (fold_right (fun s m => Z.max (Z.abs s) m) 0 (samples cp size)).

(** Modelled from the spec: RMS, "sqrt(sum(sample_i^2) / frameCount),
    accumulating the sum of squares in a range wide enough to avoid
    overflow; empty buffer yields 0". *)
Definition RMS (cp : list byte) (size : Z) : result F64.t :=
  checked (blen cp) size F64.zero
    (let ss := samples cp size in
     match ss with
     | [] => F64.zero
     | _ =>
         F64.sqrt
           (F64.div (F64.of_Z (fold_right (fun s a => s * s + a) 0 ss))
              (F64.of_Z (Z.of_nat (length ss))))
     end).

(** Modelled from the spec: Lin2Lin, "widen by zero/sign-extending the
    low-order bytes into a larger frame, narrow by dropping low-order
    bytes; preserves the sign and the most-significant bits of
    amplitude". *)
Definition Lin2Lin (cp : list byte) (size size2 : Z) : result (list byte) :=
  match checkParameters (blen cp) size with
  | Some e => ([], Some e)
  | None =>
      match checkParameters size2 size2 with
      | Some e => ([], Some e)
      | None =>
          (putSamples size2
             (map (fun s =>
                     if size <=? size2 then s * 2 ^ (8 * (size2 - size))
                     else s / 2 ^ (8 * (size - size2)))
                (samples cp size)), None)
      end
  end.

(** Modelled from the spec: ToStereo, "duplicate ... the single channel
    with independent per-source gain factors, saturating". *)
Definition ToStereo (cp : list byte) (size : Z) (fac1 fac2 : F64.t) : result (list byte) :=
  checked (blen cp) size []
    (putSamples size
       (flat_map (fun s => [saturate size (scale s fac1); saturate size (scale s fac2)])
          (samples cp size))).

Fixpoint pairs (n : nat) (vs : list Z) : list (Z * Z) :=
  match n, vs with
  | S n', l :: r :: rest => (l, r) :: pairs n' rest
  | _, _ => []
  end.

(** Modelled from the spec: ToMono, "combine the dual channel with
    independent per-source gain factors, saturating". *)
Definition ToMono (cp : list byte) (size : Z) (fac1 fac2 : F64.t) : result (list byte) :=
  match checkParameters (blen cp) size with
  | Some e => ([], Some e)
  | None =>
      if negb (blen cp mod (2 * size) =? 0) then ([], Some MalformedBuffer)
      else
        let ss := samples cp size in
        (putSamples size
           (map (fun p => saturate size (scale (fst p) fac1 + scale (snd p) fac2))
              (pairs (length ss) ss)), None)
  end.

(** The package with the functions above, around a resampler [ratecv]: the
    specification describes Ratecv by its incremental-state property only,
    so it stays a parameter. *)
Definition package
    (ratecv : list byte -> Z -> Z -> Z -> Z -> Z -> Z -> result (list byte)) : Package :=
  {| audioop.Mul := Mul; audioop.Add := Add; audioop.Bias := Bias;
     audioop.Reverse := Reverse; audioop.Max := Max; audioop.RMS := RMS;
     audioop.Lin2Lin := Lin2Lin; audioop.ToStereo := ToStereo;
     audioop.ToMono := ToMono; audioop.Ratecv := ratecv |}.

End audioop_model.

(** ** Outcomes of a Go call *)

Inductive panic :=
| IndexOutOfRange
| SliceBoundsOutOfRange
| IntegerDivideByZero
| NilDereference
| NegativeRepeatCount
| RepeatOverflow.

Inductive error :=
| AudioSegmentError (msg : string) (args : list Z)
| ArithmeticError (e : audioop.error)
| InvalidFile (msg : string).

(** [Ret] and [Err] are the two ways a Go function returns; [Panic] is a
    run-time panic and [Diverges] a loop that does not come to an end. *)
Inductive outcome (A : Type) : Type :=
| Ret (a : A)
| Err (e : error)
| Panic (p : panic)
| Diverges.

Arguments Ret {A} a.
Arguments Err {A} e.
Arguments Panic {A} p.
Arguments Diverges {A}.

Definition bind {A B : Type} (x : outcome A) (k : A -> outcome B) : outcome B :=
  match x with
  | Ret a => k a
  | Err e => Err e
  | Panic p => Panic p
  | Diverges => Diverges
  end.

Notation "x <- c ;; k" := (bind c (fun x => k))
  (at level 61, c at next level, right associativity).

(** [v, err := f(...); if err != nil { return nil, err }] for a call into
    the arithmetic package. *)
Definition arith {A : Type} (r : audioop.result A) : outcome A :=
  match snd r with
  | Some e => Err (ArithmeticError e)
  | None => Ret (fst r)
  end.

Fixpoint mapM {A B : Type} (f : A -> outcome B) (l : list A) : outcome (list B) :=
  match l with
  | [] => Ret []
  | a :: rest => b <- f a ;; bs <- mapM f rest ;; Ret (b :: bs)
  end.

(** ** Byte slices

    A [[]byte] is the list of its elements.  [s[lo:hi]] panics unless
    [0 <= lo <= hi <= cap(s)]; the capacity of a slice is taken to be its
    length, which is exact wherever the code slices up to [len(s)] at
    most. *)

Definition blen (bs : list byte) : Z := Z.of_nat (length bs).
Definition blen_Z (l : list Z) : Z := Z.of_nat (length l).

Definition sub (bs : list byte) (lo hi : Z) : list byte :=
  firstn (Z.to_nat (hi - lo)) (skipn (Z.to_nat lo) bs).

Definition slice (bs : list byte) (lo hi : Z) : outcome (list byte) :=
  if (0 <=? lo) && (lo <=? hi) && (hi <=? blen bs) then Ret (sub bs lo hi)
  else Panic SliceBoundsOutOfRange.

(** [count] copies of [b], one after the other. *)
Fixpoint copies (b : list byte) (count : nat) : list byte :=
  match count with
  | O => []
  | S n => b ++ copies b n
  end.

(** [bytes.Repeat(b, count)]: it panics on a negative count, and when the
    result would be longer than an int can say. *)
Definition bytes_Repeat (b : list byte) (count : Z) : outcome (list byte) :=
  if count =? 0 then Ret []
  else if count <? 0 then Panic NegativeRepeatCount
  else if 2 ^ 63 <=? blen b * count then Panic RepeatOverflow
  else Ret (copies b (Z.to_nat count)).

(** *** bytes.Buffer over a slice of an array

    A slice of the array [arr] is its offset, length and capacity there. *)
Record view := { v_off : nat; v_len : nat; v_cap : nat }.

(** [make([]byte, n)]: [n] zero bytes, and a slice of length and capacity
    [n] over them. *)
Definition make (n : nat) : list byte * view :=
  (repeat x00 n, {| v_off := 0; v_len := n; v_cap := n |}).

(** [s[lo:]]. *)
Definition view_from (s : view) (lo : Z) : outcome view :=
  if (0 <=? lo) && (lo <=? Z.of_nat (v_len s)) then
    Ret {| v_off := v_off s + Z.to_nat lo;
           v_len := v_len s - Z.to_nat lo;
           v_cap := v_cap s - Z.to_nat lo |}
  else Panic SliceBoundsOutOfRange.

Fixpoint overwrite (arr : list byte) (at_ : nat) (p : list byte) : list byte :=
  match at_, arr with
  | O, _ => p ++ skipn (length p) arr
  | S n, a :: rest => a :: overwrite rest n p
  | S _, [] => []
  end.

(** [w := bytes.NewBuffer(s); w.Write(p)], read at the array of [s]: the
    buffer holds the [v_len s] bytes of [s] as its contents and Write
    appends [p] after them.  The bytes land in the array only when the
    capacity left after the contents takes them; otherwise the buffer
    grows into a fresh array and the array of [s] stays as it was. *)
Definition Buffer_Write (arr : list byte) (s : view) (p : list byte) : list byte :=
  if (length p <=? v_cap s - v_len s)%nat then overwrite arr (v_off s + v_len s) p
  else arr.

(** ** AudioSegment *)

Record AudioSegment := {
  sampleWidth : Z;
  frameRate : Z;
  frameWidth : Z;
  channels : Z;
  data : list byte
}.

(** Modelled from the spec: the functional options of the constructor (not
    under src/), each setting the field of the format descriptor it is
    named after. *)
Inductive AudioSegmentOption :=
| SampleWidth (v : Z)
| FrameRate (v : Z)
| FrameWidth (v : Z)
| Channels (v : Z).

Definition applyOption (seg : AudioSegment) (opt : AudioSegmentOption) : AudioSegment :=
  match opt with
  | SampleWidth v =>
      {| sampleWidth := v; frameRate := frameRate seg; frameWidth := frameWidth seg;
         channels := channels seg; data := data seg |}
  | FrameRate v =>
      {| sampleWidth := sampleWidth seg; frameRate := v; frameWidth := frameWidth seg;
         channels := channels seg; data := data seg |}
  | FrameWidth v =>
      {| sampleWidth := sampleWidth seg; frameRate := frameRate seg; frameWidth := v;
         channels := channels seg; data := data seg |}
  | Channels v =>
      {| sampleWidth := sampleWidth seg; frameRate := frameRate seg;
         frameWidth := frameWidth seg; channels := v; data := data seg |}
  end.

Definition withData (seg : AudioSegment) (d : list byte) (w : Z) : AudioSegment :=
  {| sampleWidth := w; frameRate := frameRate seg; frameWidth := frameWidth seg;
     channels := channels seg; data := d |}.

(** The four bytes the constructor builds for one 24-bit sample:
    [[]byte{padding, b0, b1, b2}]. *)
Definition padded (b0 b1 b2 : byte) : list byte :=
  let padding := if 127 <? byte_to_Z b2 then xff else x00 in
  [padding; b0; b1; b2].

(** The loop of NewAudioSegment, [for i := 0; i < len(data); i += 3], over
    what is left of [data] from [i] on; [buf] is the array made for the
    result and [whole] the slice over all of it. *)
Fixpoint convert24 (rest : list byte) (offset : Z) (whole : view) (buf : list byte)
  : outcome (list byte) :=
  match rest with
  | [] => Ret buf
  | b0 :: b1 :: b2 :: rest' =>
      s <- view_from whole offset ;;
      convert24 rest' (offset + 4) whole (Buffer_Write buf s (padded b0 b1 b2))
  | _ => Panic IndexOutOfRange
  end.

Definition NewAudioSegment (d : list byte) (opts : list AudioSegmentOption)
  : outcome AudioSegment :=
  let seg :=
    fold_left applyOption opts
      {| sampleWidth := 0; frameRate := 0; frameWidth := 0; channels := 0; data := d |} in
  if sampleWidth seg =? 3 then
    let bytesLen := Z.quot (blen d) (sampleWidth seg) + blen d in
    let '(buf, whole) := make (Z.to_nat bytesLen) in
    buf' <- convert24 d 0 whole buf ;;
    Ret (withData seg buf' 4)
  else Ret seg.

(** derive creates a new audio segment with config from the current one. *)
Definition derive (seg : AudioSegment) (d : list byte) (opts : list AudioSegmentOption)
  : outcome AudioSegment :=
  ret <- NewAudioSegment d
           [SampleWidth (sampleWidth seg); FrameRate (frameRate seg);
            FrameWidth (frameWidth seg); Channels (channels seg)] ;;
  Ret (fold_left applyOption opts ret).

Definition FrameCount (seg : AudioSegment) : F64.t :=
  if 0 <? frameWidth seg then F64.of_Z (Z.quot (blen (data seg)) (frameWidth seg))
  else F64.zero.

Definition Duration (seg : AudioSegment) : Z :=
  if frameRate seg =? 0 then 0
  else
    F64.to_int
      (F64.round
         (F64.mul (F64.of_Z 1000) (F64.div (FrameCount seg) (F64.of_Z (frameRate seg))))).

Definition FrameCountIn (seg : AudioSegment) (ms : Z) : F64.t :=
  let duration := Duration seg in
  let ms := if duration <? ms then duration else ms in
  F64.mul (F64.of_Z ms) (F64.div (F64.of_Z (frameRate seg)) (F64.of_Z 1000)).

Definition parsePosition (seg : AudioSegment) (val : Z) : Z :=
  F64.to_int (FrameCountIn seg val).

Definition MaxPossibleAmplitude (seg : AudioSegment) : F64.t :=
  let bits := wrap_u16 (sampleWidth seg * 8) in
  F64.div (F64.pow2 bits) (F64.of_Z 2).

(** Volume is a float64 of decibels; its conversions live in a file that is
    not under src/ and are taken as they come. *)
Definition Volume := F64.t.

Module volume.

Record Package := {
  (** [v.ToRatio(isAmplitude)] *)
  ToRatio : Volume -> bool -> F64.t;
  (** [NewVolumeFromRatio(ratio, denominator, isAmplitude)] *)
  NewVolumeFromRatio : F64.t -> F64.t -> bool -> Volume
}.

End volume.

(** Modelled from the spec: [utils.NewSet(1, 2)] and its [Has] (package
    utils, not under src/): "channel conversion only supports 1 <-> 2". *)
Definition ValidChannels : list Z := [1; 2].
Definition Has (s : list Z) (x : Z) : bool := existsb (Z.eqb x) s.

(** Modelled from the spec: [utils.MaxUint16] and [utils.MaxUint32], "the
    maximum channel count, frame rate, and sample width among all
    operands". *)
Definition MaxUint (l : list Z) : Z := fold_right Z.max 0 l.

(** Modelled from the spec: [utils.ConcatenateByteSlice], "concatenates
    buffers in argument order". *)
Definition ConcatenateByteSlice (l : list (list byte)) : list byte := concat l.

Record OverlayConfig := {
  Position : Z;
  LoopToEnd : bool;
  LoopCount : Z;
  GainDuringOverlay : Volume
}.

Section Segment.

Variable ops : audioop.Package.
Variable vol : volume.Package.

Definition Slice (seg : AudioSegment) (start end_ : Z) : outcome AudioSegment :=
  if end_ <? start then
    Err (AudioSegmentError "start should be smaller than end" [])
  else if (start <? 0) || (end_ <? 0) then
    Err (AudioSegmentError "start or end should be positive" [])
  else
    let audioLength := Duration seg in
    let start := if audioLength <? start then audioLength else start in
    let end_ := if audioLength <? end_ then audioLength else end_ in
    let startIndex := wrap64 (parsePosition seg start * frameWidth seg) in
    let endIndex := wrap64 (parsePosition seg end_ * frameWidth seg) in
    let expectedLength := wrap64 (endIndex - startIndex) in
    let endIndex := if blen (data seg) <? endIndex then blen (data seg) else endIndex in
    d <- slice (data seg) startIndex endIndex ;;
    if frameWidth seg =? 0 then Panic IntegerDivideByZero
    else
      let missingFrames := Z.quot (wrap64 (expectedLength - blen d)) (frameWidth seg) in
      d' <- (if 0 <? missingFrames then
               if F64.ltb (FrameCountIn seg 2) (F64.of_Z missingFrames) then
                 Err (AudioSegmentError
                        "you should never be filling in more than 2ms with silence here, missing %d frames"
                        [missingFrames])
               else
                 frame <- slice d 0 (frameWidth seg) ;;
                 let '(silence, err) := audioop.Mul ops frame (sampleWidth seg) F64.zero in
                 match err with
                 | Some _ =>
                     (* the branch of [err != nil] *)
                     silences <- bytes_Repeat silence missingFrames ;;
                     Ret (ConcatenateByteSlice [d; silences])
                 | None => Ret d
                 end
             else Ret d) ;;
      derive seg d' [].

Definition ApplyGain (seg : AudioSegment) (volumeChange : Volume) : outcome AudioSegment :=
  d <- arith (audioop.Mul ops (data seg) (sampleWidth seg)
                (volume.ToRatio vol volumeChange true)) ;;
  derive seg d [].

Definition Repeat (seg : AudioSegment) (count : Z) : outcome AudioSegment :=
  d <- bytes_Repeat (data seg) count ;;
  derive seg d [].

Definition Reverse (seg : AudioSegment) : outcome AudioSegment :=
  d <- arith (audioop.Reverse ops (data seg) (sampleWidth seg)) ;;
  derive seg d [].

Definition ForkWithSampleWidth (seg : AudioSegment) (sampleWidth' : Z)
  : outcome AudioSegment :=
  if sampleWidth' =? sampleWidth seg then Ret seg
  else
    d <- (if sampleWidth seg =? 1 then arith (audioop.Bias ops (data seg) 1 (-128))
          else Ret (data seg)) ;;
    d <- (if 0 <? blen d then arith (audioop.Lin2Lin ops d (sampleWidth seg) sampleWidth')
          else Ret d) ;;
    d <- (if sampleWidth' =? 1 then arith (audioop.Bias ops d 1 128) else Ret d) ;;
    let frameWidth' := wrap64 (channels seg * sampleWidth') in
    derive seg d [SampleWidth (wrap_u16 sampleWidth'); FrameWidth (wrap_u32 frameWidth')].

Definition ForkWithFrameRate (seg : AudioSegment) (frameRate' : Z) : outcome AudioSegment :=
  if frameRate' =? frameRate seg then Ret seg
  else
    converted <- (if 0 <? blen (data seg) then
                    arith (audioop.Ratecv ops (data seg) (sampleWidth seg) (channels seg)
                             (frameRate seg) frameRate' 1 0)
                  else Ret (data seg)) ;;
    derive seg converted [FrameRate (wrap_u32 frameRate')].

(** The conversion ForkWithChannels has picked: [convertFunc] (nil until a
    branch sets it), [frameWidth] and [fac]. *)
Definition pickConversion (seg : AudioSegment) (channels' : Z)
  : option (list byte -> Z -> F64.t -> F64.t -> audioop.result (list byte)) * Z * F64.t :=
  if (channels' =? 2) && (channels seg =? 1) then
    (Some (audioop.ToStereo ops), wrap64 (frameWidth seg * 2), F64.one)
  else if (channels' =? 1) && (channels seg =? 2) then
    (Some (audioop.ToMono ops), Z.quot (frameWidth seg) 2, F64.div (F64.of_Z 1) (F64.of_Z 2))
  else (None, 0, F64.zero).

Definition ForkWithChannels (seg : AudioSegment) (channels' : Z) : outcome AudioSegment :=
  if negb (Has ValidChannels channels') then
    Err (AudioSegmentError "invalid channels" [])
  else if channels' =? channels seg then Ret seg
  else
    let '(convertFunc, frameWidth', fac) := pickConversion seg channels' in
    match convertFunc with
    | None => Panic NilDereference
    | Some f =>
        converted <- arith (f (data seg) (sampleWidth seg) fac fac) ;;
        derive seg converted [Channels channels'; FrameWidth (wrap_u32 frameWidth')]
    end.

(** sync will make sure every input segments have identical channels,
    frame rate and sample width. *)
Definition sync (segments : list AudioSegment) : outcome (list AudioSegment) :=
  let maxChannels := MaxUint (map channels segments) in
  let maxFrameRate := MaxUint (map frameRate segments) in
  let maxSampleWidth := MaxUint (map sampleWidth segments) in
  mapM (fun seg =>
          newSeg <- ForkWithChannels seg maxChannels ;;
          newSeg <- ForkWithFrameRate newSeg maxFrameRate ;;
          ForkWithSampleWidth newSeg maxSampleWidth)
       segments.

Definition Append (seg : AudioSegment) (segments : list AudioSegment)
  : outcome AudioSegment :=
  results <- sync (seg :: segments) ;;
  derive seg (ConcatenateByteSlice (map data results)) [].

Definition Add (seg other : AudioSegment) : outcome AudioSegment := Append seg [other].

(** The branch of RMS for a sample width other than 1. *)
Definition rmsWide (seg : AudioSegment) : F64.t :=
  let '(r, err) := audioop.RMS ops (data seg) (sampleWidth seg) in
  match err with
  | Some _ => F64.zero
  | None => r
  end.

(** RMS returns the value of root mean square.  The cached field is left
    out: it only holds what this function computes.  [r.RMS()] on the
    2-byte fork takes the other branch, and deriving from a 1-byte segment
    does not panic ([fork_of_narrow] below). *)
Definition RMS (seg : AudioSegment) : F64.t :=
  if sampleWidth seg =? 1 then
    match ForkWithSampleWidth seg 2 with
    | Ret r => rmsWide r
    | Err _ => F64.zero
    | Panic _ | Diverges => F64.zero
    end
  else rmsWide seg.

Definition Max (seg : AudioSegment) : F64.t :=
  let '(r, err) := audioop.Max ops (data seg) (sampleWidth seg) in
  match err with
  | Some _ => F64.zero
  | None => F64.of_Z r
  end.

Definition DBFS (seg : AudioSegment) : Volume :=
  volume.NewVolumeFromRatio vol (F64.div (RMS seg) (MaxPossibleAmplitude seg)) F64.zero true.

(** One pass of the mixing in Overlay: [base] is
    [rSegData[pos:pos+otherSegLen]]. *)
Definition mix (config : OverlayConfig) (sampleWidth' : Z) (base other : list byte)
  : outcome (list byte) :=
  if F64.ltb F64.zero (GainDuringOverlay config) then
    adjustedBytes <- arith (audioop.Mul ops base sampleWidth'
                              (volume.ToRatio vol (GainDuringOverlay config) true)) ;;
    arith (audioop.Add ops adjustedBytes other sampleWidth')
  else arith (audioop.Add ops base other sampleWidth').

(** The loop [for i := config.LoopCount; i != 0; i -= 1] of Overlay;
    [otherSegLen] is always [len(otherSegData)] and is read off it.  A pass
    that is not the last and consumes nothing leaves [pos] where it was;
    with a negative counter the loop then goes on (the counter would come
    back to 0 only after wrapping around int64). *)
Fixpoint overlayLoop (fuel : nat) (config : OverlayConfig) (sampleWidth' : Z)
    (rSegData : list byte) (i pos : Z) (otherSegData dest : list byte)
  : outcome (list byte * Z) :=
  match fuel with
  | O => Ret (dest, pos)
  | S fuel' =>
      if i =? 0 then Ret (dest, pos)
      else
        let rSegLen := blen rSegData in
        let remainingLen := if rSegLen - pos <? 0 then 0 else rSegLen - pos in
        let last := remainingLen <=? blen otherSegData in
        otherSegData <- (if last then slice otherSegData 0 remainingLen
                         else Ret otherSegData) ;;
        let otherSegLen := blen otherSegData in
        let i := if last then 1 else i in
        base <- slice rSegData pos (pos + otherSegLen) ;;
        overlaidBytes <- mix config sampleWidth' base otherSegData ;;
        if (otherSegLen =? 0) && (i <? 0) then Diverges
        else
          overlayLoop fuel' config sampleWidth' rSegData (wrap64 (i - 1))
            (pos + otherSegLen) otherSegData (dest ++ overlaidBytes)
  end.

(** Overlay overlays the given audio segment on the current segment.
    [other] is a pointer and may be nil. *)
Definition Overlay (seg : AudioSegment) (other : option AudioSegment)
    (config : OverlayConfig) : outcome AudioSegment :=
  match other with
  | None => derive seg (data seg) []
  | Some other =>
      let loopCount := if LoopCount config =? 0 then 1 else LoopCount config in
      let loopCount := if LoopToEnd config then -1 else loopCount in
      syncedSegments <- sync [seg; other] ;;
      match syncedSegments with
      | [segment; other] =>
          r <- Slice segment 0 (Position config) ;;
          rSegment <- Slice segment (Position config) (Duration segment) ;;
          let rSegData := data rSegment in
          let fuel := Z.to_nat (if 0 <? loopCount then loopCount else blen rSegData + 1) in
          res <- overlayLoop fuel config (sampleWidth segment) rSegData loopCount 0
                   (data other) (data r) ;;
          rest <- slice rSegData (snd res) (blen rSegData) ;;
          derive segment (fst res ++ rest) []
      | _ => Panic IndexOutOfRange
      end
  end.

(** ** Silence detection *)

(** Check if audio is empty *)
Definition checkEmptyAudio (seg : AudioSegment) : option error :=
  if F64.eqb (RMS seg) F64.zero then Some (InvalidFile "Empty file. Check audio")
  else None.

Definition min (a b : Z) : Z := if a <? b then a else b.
Definition max (a b : Z) : Z := if b <? a then a else b.

(** [ret, _ := sound.ApplyGain(changeInDBFS)]: nil when ApplyGain fails. *)
Definition matchTargetAmp (sound : AudioSegment) (targetDBFS : Volume)
  : outcome (option AudioSegment) :=
  let changeInDBFS := F64.sub targetDBFS (DBFS sound) in
  match ApplyGain sound changeInDBFS with
  | Ret r => Ret (Some r)
  | Err _ => Ret None
  | Panic p => Panic p
  | Diverges => Diverges
  end.

(** [for i := int64(0); i < lastSliceStart+1; i += int64(seekStep)]: the
    loop comes to an end within [lastSliceStart + 1] rounds when the step
    is positive, and is cut off after that many. *)
Fixpoint sliceStartsLoop (fuel : nat) (i bound seekStep : Z) (sliceStarts : list Z)
  : outcome (list Z) :=
  match fuel with
  | O => Diverges
  | S fuel' =>
      if i <? bound then
        sliceStartsLoop fuel' (wrap64 (i + seekStep)) bound seekStep (sliceStarts ++ [i])
      else Ret sliceStarts
  end.

Definition sliceStartsOf (lastSliceStart seekStep : Z) : outcome (list Z) :=
  let bound := wrap64 (lastSliceStart + 1) in
  sliceStarts <- sliceStartsLoop (S (Z.to_nat bound)) 0 bound seekStep [] ;;
  if seekStep =? 0 then Panic IntegerDivideByZero
  else if negb (Z.rem lastSliceStart seekStep =? 0) then Ret (sliceStarts ++ [lastSliceStart])
  else Ret sliceStarts.

(** [audioSlice, _ := seg.Slice(i, i+minSilenceLen)] and
    [audioSlice.RMS() <= silThresh]; a failed Slice leaves a nil pointer,
    which RMS dereferences. *)
Definition windowSilent (seg : AudioSegment) (minSilenceLen : Z) (silThresh : F64.t) (i : Z)
  : outcome bool :=
  match Slice seg i (wrap64 (i + minSilenceLen)) with
  | Ret audioSlice => Ret (F64.leb (RMS audioSlice) silThresh)
  | Err _ => Panic NilDereference
  | Panic p => Panic p
  | Diverges => Diverges
  end.

Fixpoint filterM (f : Z -> outcome bool) (l : list Z) : outcome (list Z) :=
  match l with
  | [] => Ret []
  | i :: rest =>
      b <- f i ;;
      r <- filterM f rest ;;
      Ret (if b then i :: r else r)
  end.

(** The loop that combines the silent starts into ranges; a range
    [[]int64{a, b}] is the pair [(a, b)]. *)
Fixpoint combineLoop (minSilenceLen seekStep : Z) (silenceStarts : list Z)
    (prevI currentRangeStart : Z) (silentRanges : list (Z * Z)) : list (Z * Z) :=
  match silenceStarts with
  | [] => silentRanges ++ [(currentRangeStart, wrap64 (prevI + minSilenceLen))]
  | silenceStartI :: rest =>
      let continuous := silenceStartI =? wrap64 (prevI + seekStep) in
      let silenceHasGap := wrap64 (prevI + minSilenceLen) <? silenceStartI in
      if negb continuous && silenceHasGap then
        combineLoop minSilenceLen seekStep rest silenceStartI silenceStartI
          (silentRanges ++ [(currentRangeStart, wrap64 (prevI + minSilenceLen))])
      else
        combineLoop minSilenceLen seekStep rest silenceStartI currentRangeStart silentRanges
  end.

Definition combineRanges (minSilenceLen seekStep : Z) (silenceStarts : list Z)
  : list (Z * Z) :=
  match silenceStarts with
  | [] => []
  | prevI :: rest => combineLoop minSilenceLen seekStep rest prevI prevI []
  end.

Definition silThreshOf (seg : AudioSegment) (silenceThresh : Volume) : F64.t :=
  F64.mul (volume.ToRatio vol silenceThresh true) (MaxPossibleAmplitude seg).

Definition DetectSilence (seg : AudioSegment) (minSilenceLen : Z) (silenceThresh : Volume)
    (seekStep : Z) : outcome (list (Z * Z)) :=
  let segLen := Duration seg in
  if segLen <? minSilenceLen then Ret []
  else
    let silThresh := silThreshOf seg silenceThresh in
    let lastSliceStart := wrap64 (segLen - minSilenceLen) in
    sliceStarts <- sliceStartsOf lastSliceStart seekStep ;;
    silenceStarts <- filterM (windowSilent seg minSilenceLen silThresh) sliceStarts ;;
    Ret (combineRanges minSilenceLen seekStep silenceStarts).

(** A value passed to [cmp.Equal] with its dynamic type: [[]int64] or
    [[]time.Duration]. *)
Inductive govalue :=
| Int64s (l : list Z)
| Durations (l : list Z).

(** [cmp.Equal(x, y)]: values of different dynamic types are not equal. *)
Definition cmp_Equal (x y : govalue) : bool :=
  match x, y with
  | Int64s a, Int64s b => if list_eq_dec Z.eq_dec a b then true else false
  | Durations a, Durations b => if list_eq_dec Z.eq_dec a b then true else false
  | _, _ => false
  end.

(** The [for i := range silentRanges] loop of DetectNonsilent. *)
Fixpoint gapsLoop (silentRanges : list (Z * Z)) (prevEndI endI : Z)
    (nonsilentRanges : list (Z * Z)) : list (Z * Z) * Z * Z :=
  match silentRanges with
  | [] => (nonsilentRanges, prevEndI, endI)
  | r :: rest => gapsLoop rest (snd r) (snd r) (nonsilentRanges ++ [(prevEndI, fst r)])
  end.

(** DetectNonsilent after its call of DetectSilence. *)
Definition nonsilentOf (silentRanges : list (Z * Z)) (lenSeg : Z) : outcome (list (Z * Z)) :=
  match silentRanges with
  | [] => Ret [(0, lenSeg)]
  | r0 :: _ =>
      if (fst r0 =? 0) && (snd r0 =? lenSeg) then Ret []
      else
        let '(nonsilentRanges, prevEndI, endI) := gapsLoop silentRanges 0 0 [] in
        let nonsilentRanges :=
          if negb (endI =? lenSeg) then nonsilentRanges ++ [(prevEndI, lenSeg)]
          else nonsilentRanges in
        match nonsilentRanges with
        | [] => Panic IndexOutOfRange
        | n0 :: rest =>
            if cmp_Equal (Int64s [fst n0; snd n0]) (Durations [0; 0]) then Ret rest
            else Ret nonsilentRanges
        end
  end.

Definition DetectNonsilent (seg : AudioSegment) (minSilenceLen : Z) (silenceThresh : Volume)
    (seekStep : Z) : outcome (list (Z * Z)) :=
  silentRanges <- DetectSilence seg minSilenceLen silenceThresh seekStep ;;
  nonsilentOf silentRanges (Duration seg).

(** [Len] is a method of AudioSegment that is not under src/. *)
Variable Len : AudioSegment -> Z.

Definition timing (startI endI : Z) : F32.t * F32.t :=
  (F32.div (F32.of_Z startI) (F32.of_Z 1000), F32.div (F32.of_Z endI) (F32.of_Z 1000)).

(** [temp, _ := seg.Slice(startI, endI); if temp != nil { append }]. *)
Definition keepChunk (seg : AudioSegment) (startI endI : Z)
    (acc : list AudioSegment * list (F32.t * F32.t))
  : outcome (list AudioSegment * list (F32.t * F32.t)) :=
  match Slice seg startI endI with
  | Ret temp => Ret (fst acc ++ [temp], snd acc ++ [timing startI endI])
  | Err _ => Ret acc
  | Panic p => Panic p
  | Diverges => Diverges
  end.

(** [for i := 0; i < len(notSilenceRanges)-1; i++] of SplitOnSilence, over
    the ranges from [i] on. *)
Fixpoint chunksLoop (seg : AudioSegment) (keepSilence : Z) (ranges : list (Z * Z))
    (startMin : Z) (acc : list AudioSegment * list (F32.t * F32.t))
  : outcome (list AudioSegment * list (F32.t * F32.t) * Z) :=
  match ranges with
  | r :: ((r' :: _) as rest) =>
      let endMax := wrap64 (snd r + Z.quot (wrap64 (wrap64 (fst r' - snd r) + 1)) 2) in
      let startI := max startMin (wrap64 (fst r - keepSilence)) in
      let endI := min endMax (wrap64 (snd r + keepSilence)) in
      acc' <- keepChunk seg startI endI acc ;;
      chunksLoop seg keepSilence rest (snd r) acc'
  | _ => Ret (acc, startMin)
  end.

(** What SplitOnSilence returns: [([]*AudioSegment, [][]float32, error)]. *)
Definition split_result : Type :=
  (list AudioSegment * list (F32.t * F32.t) * option error)%type.

Definition SplitOnSilence (seg : AudioSegment) (minSilenceLen : Z) (silenceThresh : Volume)
    (keepSilence seekStep : Z) : outcome split_result :=
  match checkEmptyAudio seg with
  | Some err => Ret ([], [], Some err)
  | None =>
      _ <- derive seg (data seg) [] ;;
      normAudio <- matchTargetAmp seg (F64.of_Z (-20)) ;;
      match normAudio with
      | None => Panic NilDereference
      | Some normAudio =>
          notSilenceRanges <- DetectNonsilent normAudio minSilenceLen silenceThresh seekStep ;;
          if Z.of_nat (length notSilenceRanges) =? 1 then
            Ret ([seg], [(F32.of_Z 0, F32.of_Z (Len seg))], None)
          else
            res <- chunksLoop seg keepSilence notSilenceRanges 0 ([], []) ;;
            let '(acc, startMin) := res in
            match nth_error notSilenceRanges (length notSilenceRanges - 1) with
            | None => Panic IndexOutOfRange
            | Some r =>
                let startI := max startMin (wrap64 (fst r - keepSilence)) in
                let endI := min (Duration seg) (wrap64 (snd r + keepSilence)) in
                acc' <- keepChunk seg startI endI acc ;;
                Ret (fst acc', snd acc', None)
            end
      end
  end.

(** ** Concurrent silence detection *)

Record silenceResult := { index : Z; position : Z; isSilent : bool }.

Definition calculateRMSForSegmentOptimized (seg : AudioSegment) (start end_ : Z)
  : outcome F64.t :=
  let startIndex := wrap64 (parsePosition seg start * frameWidth seg) in
  let endIndex := wrap64 (parsePosition seg end_ * frameWidth seg) in
  let endIndex := if blen (data seg) <? endIndex then blen (data seg) else endIndex in
  if endIndex <=? startIndex then Ret F64.zero
  else
    dataSlice <- slice (data seg) startIndex endIndex ;;
    let '(rms, err) := audioop.RMS ops dataSlice (sampleWidth seg) in
    match err with
    | Some _ => Ret F64.zero
    | None => Ret rms
    end.

(** What one worker sends on the result channel, in the order it sends. *)
Fixpoint worker (seg : AudioSegment) (minSilenceLen : Z) (silThresh : F64.t)
    (positions : list Z) (startIdx : Z) : outcome (list silenceResult) :=
  match positions with
  | [] => Ret []
  | pos :: rest =>
      rms <- calculateRMSForSegmentOptimized seg pos (wrap64 (pos + minSilenceLen)) ;;
      sent <- worker seg minSilenceLen silThresh rest (startIdx + 1) ;;
      Ret ({| index := startIdx; position := pos; isSilent := F64.leb rms silThresh |} :: sent)
  end.

(** [for i := 0; i < numWorkers; i++]: the workers started, each with what
    it sends. *)
Fixpoint spawn (seg : AudioSegment) (minSilenceLen : Z) (silThresh : F64.t)
    (sliceStarts : list Z) (chunkSize : Z) (n : nat) (i : Z)
  : outcome (list (list silenceResult)) :=
  match n with
  | O => Ret []
  | S n' =>
      let start := i * chunkSize in
      let end_ := start + chunkSize in
      let end_ := if blen_Z sliceStarts <? end_ then blen_Z sliceStarts else end_ in
      sent <- (if start <? end_ then
                 worker seg minSilenceLen silThresh
                   (firstn (Z.to_nat (end_ - start)) (skipn (Z.to_nat start) sliceStarts)) start
               else Ret []) ;;
      others <- spawn seg minSilenceLen silThresh sliceStarts chunkSize n' (i + 1) ;;
      Ret (sent :: others)
  end.

(** [results[result.index] = result]. *)
Fixpoint store (results : list silenceResult) (i : nat) (r : silenceResult)
  : option (list silenceResult) :=
  match results, i with
  | [], _ => None
  | _ :: rest, O => Some (r :: rest)
  | x :: rest, S i' => option_map (cons x) (store rest i' r)
  end.

(** [for result := range resultCh]. *)
Fixpoint collect (received : list silenceResult) (results : list silenceResult)
  : outcome (list silenceResult) :=
  match received with
  | [] => Ret results
  | r :: rest =>
      if index r <? 0 then Panic IndexOutOfRange
      else
        match store results (Z.to_nat (index r)) r with
        | None => Panic IndexOutOfRange
        | Some results' => collect rest results'
        end
  end.

(** DetectSilenceConcurrent.  [numCPU] is [runtime.NumCPU()]; the order in
    which the channel delivers what the workers send is the scheduler's,
    [schedule]: it hands over an interleaving of the workers' sequences. *)
Definition DetectSilenceConcurrent (numCPU : Z)
    (schedule : list (list silenceResult) -> list silenceResult)
    (seg : AudioSegment) (minSilenceLen : Z) (silenceThresh : Volume) (seekStep : Z)
  : outcome (list (Z * Z)) :=
  let segLen := Duration seg in
  if segLen <? minSilenceLen then Ret []
  else
    let silThresh := silThreshOf seg silenceThresh in
    let lastSliceStart := wrap64 (segLen - minSilenceLen) in
    sliceStarts <- sliceStartsOf lastSliceStart seekStep ;;
    let numWorkers := if blen_Z sliceStarts <? numCPU then blen_Z sliceStarts else numCPU in
    if numWorkers =? 0 then Panic IntegerDivideByZero
    else
      let chunkSize := Z.quot (blen_Z sliceStarts + numWorkers - 1) numWorkers in
      sent <- spawn seg minSilenceLen silThresh sliceStarts chunkSize (Z.to_nat numWorkers) 0 ;;
      results <- collect (schedule sent)
                   (repeat {| index := 0; position := 0; isSilent := false |}
                      (length sliceStarts)) ;;
      let silenceStarts := map position (filter isSilent results) in
      Ret (combineRanges minSilenceLen seekStep silenceStarts).

(** DetectNonsilentConcurrent after its call of DetectSilenceConcurrent:
    the loop of DetectNonsilent, without the comparison at its end. *)
Definition nonsilentOfConcurrent (silentRanges : list (Z * Z)) (lenSeg : Z)
  : list (Z * Z) :=
  match silentRanges with
  | [] => [(0, lenSeg)]
  | r0 :: _ =>
      if (fst r0 =? 0) && (snd r0 =? lenSeg) then []
      else
        let '(nonsilentRanges, prevEndI, endI) := gapsLoop silentRanges 0 0 [] in
        if negb (endI =? lenSeg) then nonsilentRanges ++ [(prevEndI, lenSeg)]
        else nonsilentRanges
  end.

Definition DetectNonsilentConcurrent (numCPU : Z)
    (schedule : list (list silenceResult) -> list silenceResult)
    (seg : AudioSegment) (minSilenceLen : Z) (silenceThresh : Volume) (seekStep : Z)
  : outcome (list (Z * Z)) :=
  silentRanges <- DetectSilenceConcurrent numCPU schedule seg minSilenceLen silenceThresh
                    seekStep ;;
  Ret (nonsilentOfConcurrent silentRanges (Duration seg)).

(** The loop [for trimMS < sound.Duration()] of detectLeadingSilence.  With
    a positive chunk size it ends within [Duration] rounds, and is cut off
    after that many; [temp1] is nil when Slice fails, and DBFS dereferences
    it. *)
Fixpoint leadingLoop (fuel : nat) (sound : AudioSegment) (silenceThreshold : Volume)
    (chunkSize trimMS : Z) : outcome Z :=
  match fuel with
  | O => Diverges
  | S fuel' =>
      if trimMS <? Duration sound then
        match Slice sound trimMS (wrap64 (trimMS + chunkSize)) with
        | Ret temp1 =>
            if F64.ltb (DBFS temp1) silenceThreshold then
              leadingLoop fuel' sound silenceThreshold chunkSize (wrap64 (trimMS + chunkSize))
            else Ret trimMS
        | Err _ => Panic NilDereference
        | Panic p => Panic p
        | Diverges => Diverges
        end
      else Ret trimMS
  end.

Definition detectLeadingSilence (sound : AudioSegment) (silenceThreshold : Volume)
    (chunkSize : Z) : outcome Z :=
  leadingLoop (S (Z.to_nat (Duration sound))) sound silenceThreshold chunkSize 0.

End Segment.

(** * Properties *)

(** ** Integers and floats *)

Lemma wrap64_small (z : Z) : - 2 ^ 63 <= z < 2 ^ 63 -> wrap64 z = z.
Proof.
  intros H. unfold wrap64.
  rewrite Z.mod_small; lia.
Qed.

Lemma to_int_range (x : F64.t) : - 2 ^ 63 <= F64.to_int x < 2 ^ 63.
Proof.
  unfold F64.to_int.
  destruct x as [s | s | | s m e]; try lia.
  destruct ((- 2 ^ 63 <=? _) && (_ <? 2 ^ 63)) eqn:E; [ | lia ].
  apply andb_prop in E. destruct E as [E1 E2].
  apply Z.leb_le in E1. apply Z.ltb_lt in E2. lia.
Qed.

Lemma Duration_range (seg : AudioSegment) : - 2 ^ 63 <= Duration seg < 2 ^ 63.
Proof.
  unfold Duration. destruct (frameRate seg =? 0); [ lia | apply to_int_range ].
Qed.

(** ** Construction and derivation *)

Definition declared (d : list byte) (opts : list AudioSegmentOption) : AudioSegment :=
  fold_left applyOption opts
    {| sampleWidth := 0; frameRate := 0; frameWidth := 0; channels := 0; data := d |}.

Lemma applyOption_data (seg : AudioSegment) (opt : AudioSegmentOption) :
  data (applyOption seg opt) = data seg.
Proof. destruct opt; reflexivity. Qed.

Lemma fold_applyOption_data (opts : list AudioSegmentOption) (seg : AudioSegment) :
  data (fold_left applyOption opts seg) = data seg.
Proof.
  revert seg. induction opts as [ | o opts IH]; intros seg; simpl; [ reflexivity | ].
  rewrite IH. apply applyOption_data.
Qed.

Lemma Buffer_Write_full (arr : list byte) (s : view) (p : list byte) :
  v_cap s = v_len s -> p <> [] -> Buffer_Write arr s p = arr.
Proof.
  intros Hc Hp. unfold Buffer_Write. rewrite Hc, Nat.sub_diag.
  destruct p as [ | b p]; [ congruence | reflexivity ].
Qed.

(** The conversion loop never changes the array it was given: every
    buffer it writes through is full from the start. *)
Lemma convert24_keeps_buf (n : nat) (rest : list byte) :
  forall (offset : Z) (buf r : list byte),
    convert24 rest offset {| v_off := 0; v_len := n; v_cap := n |} buf = Ret r -> r = buf.
Proof.
  induction rest as [rest IH] using (well_founded_induction
    (Wf_nat.well_founded_ltof _ (@length byte))).
  intros offset buf r H.
  destruct rest as [ | b0 [ | b1 [ | b2 rest']]]; simpl in H; try discriminate.
  - congruence.
  - unfold view_from in H. simpl in H.
    destruct ((0 <=? offset) && (offset <=? Z.of_nat n)); simpl in H; [ | discriminate ].
    rewrite Buffer_Write_full in H by (first [ reflexivity | unfold padded; discriminate ]).
    apply IH in H; [ exact H | unfold Wf_nat.ltof; simpl; lia ].
Qed.

Lemma convert24_returns (n : nat) (k : nat) :
  forall (rest : list byte) (offset : Z) (buf : list byte),
    length rest = (3 * k)%nat -> 0 <= offset -> offset + 4 * Z.of_nat k <= Z.of_nat n + 4 ->
    convert24 rest offset {| v_off := 0; v_len := n; v_cap := n |} buf = Ret buf.
Proof.
  induction k as [ | k IH]; intros rest offset buf Hl Ho Hb.
  - destruct rest; [ reflexivity | discriminate ].
  - destruct rest as [ | b0 [ | b1 [ | b2 rest']]]; simpl in Hl; try lia.
    simpl. unfold view_from. simpl.
    replace ((0 <=? offset) && (offset <=? Z.of_nat n)) with true
      by (symmetry; apply andb_true_intro; split; [ apply Z.leb_le | apply Z.leb_le ]; lia).
    simpl. rewrite Buffer_Write_full by (first [ reflexivity | unfold padded; discriminate ]).
    apply IH; lia.
Qed.

Lemma NewAudioSegment_other (d : list byte) (opts : list AudioSegmentOption) :
  sampleWidth (declared d opts) <> 3 -> NewAudioSegment d opts = Ret (declared d opts).
Proof.
  intros H. unfold NewAudioSegment. fold (declared d opts).
  destruct (sampleWidth (declared d opts) =? 3) eqn:E; [ | reflexivity ].
  apply Z.eqb_eq in E. contradiction.
Qed.

Lemma NewAudioSegment_no_err (d : list byte) (opts : list AudioSegmentOption) (e : error) :
  NewAudioSegment d opts <> Err e.
Proof.
  unfold NewAudioSegment. fold (declared d opts).
  destruct (sampleWidth (declared d opts) =? 3); [ | discriminate ].
  unfold make.
  assert (G : forall rest offset whole buf, convert24 rest offset whole buf <> Err e).
  { induction rest as [rest IH] using (well_founded_induction
      (Wf_nat.well_founded_ltof _ (@length byte))).
    intros offset whole buf.
    destruct rest as [ | b0 [ | b1 [ | b2 rest']]]; simpl; try discriminate.
    unfold view_from. destruct ((0 <=? offset) && (offset <=? Z.of_nat (v_len whole)));
      simpl; [ | discriminate ].
    apply IH. unfold Wf_nat.ltof; simpl; lia. }
  match goal with |- context [convert24 ?a ?b ?c ?d] =>
    specialize (G a b c d); destruct (convert24 a b c d) end; simpl; congruence.
Qed.

Lemma derive_plain (seg : AudioSegment) (d : list byte) (opts : list AudioSegmentOption) :
  sampleWidth seg <> 3 ->
  derive seg d opts =
    Ret (fold_left applyOption opts
           {| sampleWidth := sampleWidth seg; frameRate := frameRate seg;
              frameWidth := frameWidth seg; channels := channels seg; data := d |}).
Proof.
  intros H. unfold derive.
  rewrite NewAudioSegment_other; [ reflexivity | exact H ].
Qed.

Lemma derive_no_err (seg : AudioSegment) (d : list byte) (opts : list AudioSegmentOption)
    (e : error) : derive seg d opts <> Err e.
Proof.
  unfold derive.
  match goal with |- context [NewAudioSegment ?a ?b] =>
    pose proof (NewAudioSegment_no_err a b e) as G; destruct (NewAudioSegment a b) end;
    simpl; congruence.
Qed.

(** ** Packages for closed examples

    The resampler and the volume conversions are parameters of the
    development.  Where a closed example needs a package, it gets the
    arithmetic of [audioop_model] around a resampler that turns every call
    down (no example resamples: the frame rates agree), and a volume
    package whose ratio is the same for every volume. *)

Definition noRatecv (cp : list byte) (size nchannels inrate outrate weightA weightB : Z)
  : audioop.result (list byte) := ([], Some audioop.MalformedBuffer).

Definition modelOps : audioop.Package := audioop_model.package noRatecv.

Definition constVolume (ratio : F64.t) : volume.Package :=
  {| volume.ToRatio := fun _ _ => ratio;
     volume.NewVolumeFromRatio := fun _ _ _ => F64.zero |}.

Definition mono16 (rate : Z) (d : list byte) : AudioSegment :=
  {| sampleWidth := 2; frameRate := rate; frameWidth := 2; channels := 1; data := d |}.

(** ** C2: what the constructor stores *)

(** The conversion in the words of the specification, for comparison: each
    3-byte sample keeps its bytes as the low-order bytes and gets the sign
    byte as the most significant one. *)
Fixpoint signExtend24 (d : list byte) : list byte :=
  match d with
  | b0 :: b1 :: b2 :: rest =>
      b0 :: b1 :: b2 :: (if 127 <? byte_to_Z b2 then xff else x00) :: signExtend24 rest
  | _ => []
  end.

Lemma signExtend24_zero (k : nat) :
  forall d : list byte,
    length d = (3 * k)%nat ->
    (signExtend24 d = repeat x00 (4 * k) <-> d = repeat x00 (3 * k)).
Proof.
  induction k as [ | k IH]; intros d Hl.
  - destruct d; [ split; reflexivity | discriminate ].
  - destruct d as [ | b0 [ | b1 [ | b2 rest]]]; cbn [length] in Hl; try lia.
    replace (4 * S k)%nat with (4 + 4 * k)%nat by lia.
    replace (3 * S k)%nat with (3 + 3 * k)%nat by lia.
    change (repeat x00 (4 + 4 * k)) with (x00 :: x00 :: x00 :: x00 :: repeat x00 (4 * k)).
    change (repeat x00 (3 + 3 * k)) with (x00 :: x00 :: x00 :: repeat x00 (3 * k)).
    cbn [signExtend24].
    specialize (IH rest ltac:(lia)).
    split; intros H.
    + injection H as -> -> -> _ Hr. apply IH in Hr. rewrite Hr. reflexivity.
    + injection H as -> -> -> Hr. apply IH in Hr. rewrite Hr.
      change (byte_to_Z x00) with 0. reflexivity.
Qed.

(** C2 (code bug), at the failing input: for the one 24-bit sample
    01 02 83 the constructor stores four zero bytes, where sign extension
    gives 01 02 83 FF. *)
Lemma NewAudioSegment_width3_counterexample :
  NewAudioSegment [x01; x02; x83] [SampleWidth 3]
    = Ret {| sampleWidth := 4; frameRate := 0; frameWidth := 0; channels := 0;
             data := [x00; x00; x00; x00] |}
  /\ signExtend24 [x01; x02; x83] = [x01; x02; x83; xff].
Proof. split; reflexivity. Qed.

(** C2 (code bug): a buffer declared with sample width 3 whose length is a
    multiple of 3 is stored under sample width 4 as zero bytes only, four
    for every 3-byte sample: each 4-byte group is written through a
    bytes.Buffer over [buf[offset:]], which is full from the start, so the
    group lands in a fresh array and never in the buffer that is stored.
    What is stored is therefore the sign extension of the input only when
    every input byte is zero.  A buffer of any other declared width is
    stored unchanged. *)
Theorem NewAudioSegment_widths (d : list byte) (opts : list AudioSegmentOption) :
  (sampleWidth (declared d opts) = 3 -> (length d mod 3 = 0)%nat ->
   NewAudioSegment d opts
   = Ret (withData (declared d opts) (repeat x00 (4 * (length d / 3))) 4)
   /\ (repeat x00 (4 * (length d / 3)) = signExtend24 d <-> d = repeat x00 (length d)))
  /\ (sampleWidth (declared d opts) <> 3 ->
      NewAudioSegment d opts = Ret (declared d opts) /\ data (declared d opts) = d).
Proof.
  split.
  - intros Hw Hm.
    assert (Hk : length d = (3 * (length d / 3))%nat)
      by (apply Nat.Div0.div_exact; exact Hm).
    set (k := (length d / 3)%nat) in *.
    split.
    + unfold NewAudioSegment. fold (declared d opts). rewrite Hw.
      change (3 =? 3) with true. cbv iota. unfold make.
      assert (Hn : Z.to_nat (Z.quot (blen d) 3 + blen d) = (4 * k)%nat).
      { unfold blen. rewrite Hk. rewrite Z.quot_div_nonneg by lia.
        replace (Z.of_nat (3 * k)) with (Z.of_nat k * 3) by lia.
        rewrite Z.div_mul by lia. lia. }
      rewrite Hn.
      rewrite (convert24_returns (4 * k) k) by (try exact Hk; lia).
      reflexivity.
    + assert (Hrep : repeat x00 (length d) = repeat x00 (3 * k)) by (f_equal; exact Hk).
      rewrite Hrep. pose proof (signExtend24_zero k d Hk) as [H1 H2].
      split; intros H; [ apply H1; symmetry; exact H | symmetry; apply H2; exact H ].
  - intros Hw. split; [ apply NewAudioSegment_other; exact Hw | ].
    unfold declared. apply fold_applyOption_data.
Qed.

Lemma NewAudioSegment_widths_witness :
  (NewAudioSegment [x01; x02; x83] [SampleWidth 3]
   = Ret {| sampleWidth := 4; frameRate := 0; frameWidth := 0; channels := 0;
            data := [x00; x00; x00; x00] |}
   /\ ([x00; x00; x00; x00] = signExtend24 [x01; x02; x83]
       <-> [x01; x02; x83] = [x00; x00; x00]))
  /\ NewAudioSegment [x01; x02; x83; x04] [SampleWidth 2]
     = Ret (declared [x01; x02; x83; x04] [SampleWidth 2]).
Proof.
  pose proof (NewAudioSegment_widths [x01; x02; x83] [SampleWidth 3]) as [H3 _].
  pose proof (NewAudioSegment_widths [x01; x02; x83; x04] [SampleWidth 2]) as [_ H2].
  split.
  - apply H3; reflexivity.
  - apply H2. discriminate.
Defined.

(** ** C10: ForkWithChannels checks its target only *)

(** C10: when the segment's own channel count is outside {1, 2} and the
    target is 1 or 2, no conversion function is picked and calling it
    dereferences nil; the invalid-channels error is returned exactly when
    the target is outside {1, 2}. *)
Theorem ForkWithChannels_checks_target (ops : audioop.Package) (seg : AudioSegment)
    (target : Z) :
  Has ValidChannels (channels seg) = false ->
  Has ValidChannels target = true ->
  fst (fst (pickConversion ops seg target)) = None
  /\ ForkWithChannels ops seg target = Panic NilDereference
  /\ (forall c : Z,
        ForkWithChannels ops seg c = Err (AudioSegmentError "invalid channels" [])
        <-> Has ValidChannels c = false).
Proof.
  intros Hs Ht.
  assert (Hs1 : (channels seg =? 1) = false /\ (channels seg =? 2) = false).
  { unfold Has, ValidChannels in Hs. simpl in Hs.
    rewrite !(Z.eqb_sym (channels seg)) in Hs.
    destruct (1 =? channels seg) eqn:E1, (2 =? channels seg) eqn:E2;
      try discriminate.
    rewrite !(Z.eqb_sym (channels seg)). auto. }
  destruct Hs1 as [Hc1 Hc2].
  assert (Hpick : pickConversion ops seg target = (None, 0, F64.zero)).
  { unfold pickConversion. rewrite Hc1, Hc2, !andb_false_r. reflexivity. }
  split; [ rewrite Hpick; reflexivity | ]. split.
  - unfold ForkWithChannels. rewrite Ht. simpl.
    assert (Hne : (target =? channels seg) = false).
    { apply Z.eqb_neq. intros ->. congruence. }
    rewrite Hne, Hpick. reflexivity.
  - intros c. split.
    + intros H. unfold ForkWithChannels in H.
      destruct (Has ValidChannels c); [ exfalso | reflexivity ].
      simpl in H. destruct (c =? channels seg); [ discriminate | ].
      destruct (pickConversion ops seg c) as [[[f | ] fw] fac]; [ | discriminate ].
      unfold arith in H. destruct (snd (f _ _ _ _)); simpl in H; [ discriminate | ].
      exact (derive_no_err _ _ _ _ H).
    + intros H. unfold ForkWithChannels. rewrite H. reflexivity.
Qed.

Lemma ForkWithChannels_checks_target_witness :
  ForkWithChannels modelOps
    {| sampleWidth := 2; frameRate := 8000; frameWidth := 12; channels := 6;
       data := repeat x00 12 |} 2 = Panic NilDereference.
Proof.
  apply (ForkWithChannels_checks_target modelOps
           {| sampleWidth := 2; frameRate := 8000; frameWidth := 12; channels := 6;
              data := repeat x00 12 |} 2); reflexivity.
Defined.

(** ** C8: errors of the arithmetic package *)
















(** ** Slice *)

Definition clampMs (seg : AudioSegment) (ms : Z) : Z :=
  if Duration seg <? ms then Duration seg else ms.

(** [startIndex] and the clamped [endIndex] of Slice. *)
Definition startIndexOf (seg : AudioSegment) (ms : Z) : Z :=
  wrap64 (parsePosition seg (clampMs seg ms) * frameWidth seg).

Definition endIndexOf (seg : AudioSegment) (ms : Z) : Z :=
  if blen (data seg) <? startIndexOf seg ms then blen (data seg) else startIndexOf seg ms.

(** Go functions return [nil] beside an error; this is all the segment
    code needs of Mul where it reads the value in the error branch. *)
Definition nilOnError (ops : audioop.Package) : Prop :=
  forall d w f, snd (audioop.Mul ops d w f) <> None -> fst (audioop.Mul ops d w f) = [].

Lemma copies_nil (n : nat) : copies [] n = [].
Proof. induction n as [ | n IH]; simpl; [ reflexivity | exact IH ]. Qed.

Lemma bytes_Repeat_nil (count : Z) : 0 <= count -> bytes_Repeat [] count = Ret [].
Proof.
  intros H. unfold bytes_Repeat. destruct (count =? 0); [ reflexivity | ].
  replace (count <? 0) with false by (symmetry; apply Z.ltb_ge; exact H).
  change (blen []) with 0. rewrite Z.mul_0_l. change (2 ^ 63 <=? 0) with false.
  rewrite copies_nil. reflexivity.
Qed.

Lemma slice_Ret (bs : list byte) (lo hi : Z) (d : list byte) :
  slice bs lo hi = Ret d -> 0 <= lo <= hi /\ hi <= blen bs /\ d = sub bs lo hi.
Proof.
  unfold slice. intros H.
  destruct ((0 <=? lo) && (lo <=? hi) && (hi <=? blen bs)) eqn:E; [ | discriminate ].
  apply andb_prop in E. destruct E as [E E3]. apply andb_prop in E. destruct E as [E1 E2].
  apply Z.leb_le in E1. apply Z.leb_le in E2. apply Z.leb_le in E3.
  inversion H. subst. repeat split; lia.
Qed.

Lemma slice_ok (bs : list byte) (lo hi : Z) :
  0 <= lo <= hi -> hi <= blen bs -> slice bs lo hi = Ret (sub bs lo hi).
Proof.
  intros H1 H2. unfold slice.
  replace ((0 <=? lo) && (lo <=? hi) && (hi <=? blen bs)) with true; [ reflexivity | ].
  symmetry. rewrite !andb_true_iff, !Z.leb_le. lia.
Qed.

(** Whenever Slice returns, it returns the bytes between the two indices
    and nothing more: no silence is added. *)
Lemma Slice_Ret (ops : audioop.Package) (seg : AudioSegment) (start end_ : Z)
    (s : AudioSegment) :
  nilOnError ops -> sampleWidth seg <> 3 ->
  Slice ops seg start end_ = Ret s ->
  0 <= start <= end_
  /\ 0 <= startIndexOf seg start <= endIndexOf seg end_
  /\ s = {| sampleWidth := sampleWidth seg; frameRate := frameRate seg;
            frameWidth := frameWidth seg; channels := channels seg;
            data := sub (data seg) (startIndexOf seg start) (endIndexOf seg end_) |}.
Proof.
  intros Hnil Hw H. unfold Slice in H.
  destruct (end_ <? start) eqn:E1; [ discriminate | ].
  destruct ((start <? 0) || (end_ <? 0)) eqn:E2; [ discriminate | ].
  apply Z.ltb_ge in E1. apply orb_false_elim in E2. destruct E2 as [E2 E3].
  apply Z.ltb_ge in E2. apply Z.ltb_ge in E3.
  cbv zeta in H. fold (clampMs seg start) in H. fold (clampMs seg end_) in H.
  fold (startIndexOf seg start) in H. fold (startIndexOf seg end_) in H.
  fold (endIndexOf seg end_) in H. 
  destruct (slice (data seg) (startIndexOf seg start) (endIndexOf seg end_)) as [d | | | ] eqn:Es;
    try discriminate. 
  apply slice_Ret in Es. destruct Es as [Hlo [Hhi Hd]].
  cbn [bind] in H. destruct (frameWidth seg =? 0); [ discriminate | ].
  match type of H with bind ?c _ = _ => assert (Hc : c = Ret d \/ (exists e, c = Err e) \/ (exists p, c = Panic p)) end.
  { destruct (0 <? _) eqn:Em; [ | left; reflexivity ].
    apply Z.ltb_lt in Em.
    destruct (F64.ltb _ _); [ right; left; eexists; reflexivity | ].
    destruct (slice d 0 (frameWidth seg)) as [frame | | | ] eqn:Ef; cbn [bind].
    - pose proof (Hnil frame (sampleWidth seg) F64.zero) as Hn.
      destruct (audioop.Mul ops frame (sampleWidth seg) F64.zero) as [silence [err | ]];
        [ | left; reflexivity ].
      cbn [fst snd] in Hn. rewrite Hn by discriminate.
      rewrite bytes_Repeat_nil by lia. cbn [bind].
      unfold ConcatenateByteSlice. cbn [concat].
      rewrite !app_nil_r. left; reflexivity.
    - unfold slice in Ef. destruct (_ && _); discriminate.
    - right. right. eexists. reflexivity.
    - unfold slice in Ef. destruct (_ && _); discriminate. }
  destruct Hc as [Hc | [[e Hc] | [p Hc]]]; rewrite Hc in H; cbn [bind] in H; try discriminate.
  rewrite derive_plain in H by exact Hw. cbn [fold_left] in H. inversion H. subst s d.
  split; [ lia | ]. split; [ lia | reflexivity ].
Qed.

(** ** C3: the silence fill of Slice *)

(** Two 16-bit mono frames at 3000 Hz: 0.67 ms, which Duration rounds to
    1 ms, and 1 ms is three frames. *)
Definition short3000 : AudioSegment := mono16 3000 [x01; x00; x02; x00].

(** C3 (code bug), at the failing input: Slice(0, 1) of two frames at
    3000 Hz expects 6 bytes, finds 4 and is one frame short, within the
    2 ms tolerance; Mul succeeds on the first frame, and since the fill
    sits in the branch of [err != nil] the 4 bytes are returned as they
    are. *)
Theorem Slice_leaves_shortfall (ops : audioop.Package) :
  snd (audioop.Mul ops [x01; x00] 2 F64.zero) = None ->
  Duration short3000 = 1
  /\ parsePosition short3000 1 * frameWidth short3000 = 6
  /\ blen (data short3000) = 4
  /\ F64.ltb (FrameCountIn short3000 2) (F64.of_Z 1) = false
  /\ Slice ops short3000 0 1 = Ret short3000.
Proof.
  intros H.
  split; [ vm_compute; reflexivity | ].
  split; [ vm_compute; reflexivity | ].
  split; [ reflexivity | ].
  split; [ vm_compute; reflexivity | ].
  assert (E : Slice ops short3000 0 1
              = (d' <- (let '(silence, err) := audioop.Mul ops [x01; x00] 2 F64.zero in
                        match err with
                        | Some _ =>
                            silences <- bytes_Repeat silence 1 ;;
                            Ret (ConcatenateByteSlice [data short3000; silences])
                        | None => Ret (data short3000)
                        end) ;;
                 derive short3000 d' []))
    by (vm_compute; reflexivity).
  rewrite E.
  destruct (audioop.Mul ops [x01; x00] 2 F64.zero) as [silence err].
  cbn [snd] in H. subst err. reflexivity.
Qed.

Lemma Slice_leaves_shortfall_witness : Slice modelOps short3000 0 1 = Ret short3000.
Proof.
  apply (Slice_leaves_shortfall modelOps). reflexivity.
Defined.

(** ** C4: the complement of the silent ranges *)

Lemma gapsLoop_prefix (silentRanges : list (Z * Z)) :
  forall (prevEndI endI : Z) (acc : list (Z * Z)),
    exists tl, fst (fst (gapsLoop silentRanges prevEndI endI acc)) = acc ++ tl.
Proof.
  induction silentRanges as [ | r rest IH]; intros prevEndI endI acc; simpl.
  - exists []. rewrite app_nil_r. reflexivity.
  - destruct (IH (snd r) (snd r) (acc ++ [(prevEndI, fst r)])) as [tl Htl].
    exists ((prevEndI, fst r) :: tl). rewrite Htl, <- app_assoc. reflexivity.
Qed.

(** Two silent frames, then two loud ones, 16-bit mono at 1000 Hz. *)
Definition quietThenLoud : AudioSegment :=
  mono16 1000 [x00; x00; x00; x00; xff; x7f; xff; x7f].

Definition half : F64.t := F64.div (F64.of_Z 1) (F64.of_Z 2).

(** C4 (code bug): the comparison that should drop a leading [0, 0] is
    [cmp.Equal] of a [[]int64] with a [[]time.Duration], which is false
    for every value, so nothing is dropped: whenever the first silent
    range starts at 0 and does not end at the duration, the result starts
    with the range [0, 0].  At the failing input (silence over the first
    2 ms of 4 ms) the result is [[0, 0], [2, 4]]. *)
Theorem DetectNonsilent_keeps_empty_range (vol : volume.Package) (thresh : Volume)
    (ratecv : list byte -> Z -> Z -> Z -> Z -> Z -> Z -> audioop.result (list byte)) :
  volume.ToRatio vol thresh true = half ->
  (forall (e0 lenSeg : Z) (rest : list (Z * Z)),
      e0 <> lenSeg ->
      exists tl, nonsilentOf ((0, e0) :: rest) lenSeg = Ret ((0, 0) :: tl))
  /\ DetectSilence (audioop_model.package ratecv) vol quietThenLoud 1 thresh 1
     = Ret [(0, 2)]
  /\ DetectNonsilent (audioop_model.package ratecv) vol quietThenLoud 1 thresh 1
     = Ret [(0, 0); (2, 4)].
Proof.
  intros Hr. split.
  - intros e0 lenSeg rest He. unfold nonsilentOf.
    cbn [fst snd]. apply Z.eqb_neq in He. rewrite He. cbn [Z.eqb andb].
    cbn [gapsLoop fst snd app].
    destruct (gapsLoop_prefix rest e0 e0 [(0, 0)]) as [tl Htl].
    destruct (gapsLoop rest e0 e0 [(0, 0)]) as [[ns p] e]. cbn [fst] in Htl. subst ns.
    destruct (negb (e =? lenSeg)); cbn [app cmp_Equal fst snd];
      eexists; reflexivity.
  - assert (Hs : DetectSilence (audioop_model.package ratecv) vol quietThenLoud 1 thresh 1
                 = Ret [(0, 2)]).
    { unfold DetectSilence, silThreshOf. rewrite Hr. vm_compute. reflexivity. }
    split; [ exact Hs | ].
    unfold DetectNonsilent. rewrite Hs. vm_compute. reflexivity.
Qed.

Lemma DetectNonsilent_keeps_empty_range_witness :
  DetectNonsilent modelOps (constVolume half) quietThenLoud 1 F64.zero 1
  = Ret [(0, 0); (2, 4)].
Proof.
  apply (DetectNonsilent_keeps_empty_range (constVolume half) F64.zero noRatecv).
  reflexivity.
Defined.

(** ** C5: the windows DetectSilence examines and how it merges them *)

(** The window starts in the words of the specification: every multiple of
    the step from 0 up to the last start, and the last start itself when
    it is not a multiple. *)
Definition windowStarts (lastSliceStart seekStep : Z) : list Z :=
  map (fun k => Z.of_nat k * seekStep) (seq 0 (S (Z.to_nat (lastSliceStart / seekStep))))
  ++ (if lastSliceStart mod seekStep =? 0 then [] else [lastSliceStart]).

Lemma windowStarts_In (lastSliceStart seekStep i : Z) :
  0 < seekStep -> 0 <= lastSliceStart ->
  (In i (windowStarts lastSliceStart seekStep)
   <-> 0 <= i <= lastSliceStart /\ (i mod seekStep = 0 \/ i = lastSliceStart)).
Proof.
  intros Hs Hl. unfold windowStarts. rewrite in_app_iff, in_map_iff.
  pose proof (Z.div_pos lastSliceStart seekStep Hl Hs) as Hq.
  pose proof (Z.mul_div_le lastSliceStart seekStep Hs) as Hm.
  split.
  - intros [[k [Hk Hin]] | Hin].
    + apply in_seq in Hin. subst i.
      assert (Z.of_nat k <= lastSliceStart / seekStep) by lia.
      split; [ nia | left; apply Z_mod_mult ].
    + destruct (lastSliceStart mod seekStep =? 0); simpl in Hin; [ contradiction | ].
      destruct Hin as [<- | []]. split; [ lia | right; reflexivity ].
  - intros [Hi [Hmod | ->]].
    + left. exists (Z.to_nat (i / seekStep)). split.
      * rewrite Z2Nat.id by (apply Z.div_pos; lia).
        pose proof (Z.div_mod i seekStep ltac:(lia)). lia.
      * apply in_seq.
        assert (i / seekStep <= lastSliceStart / seekStep)
          by (apply Z.div_le_mono; lia).
        assert (0 <= i / seekStep) by (apply Z.div_pos; lia). lia.
    + destruct (lastSliceStart mod seekStep =? 0) eqn:E.
      * left. apply Z.eqb_eq in E. exists (Z.to_nat (lastSliceStart / seekStep)). split.
        -- rewrite Z2Nat.id by lia.
           pose proof (Z.div_mod lastSliceStart seekStep ltac:(lia)). lia.
        -- apply in_seq. lia.
      * right. left. reflexivity.
Qed.

Lemma sliceStartsLoop_multiples (lastSliceStart seekStep : Z) :
  0 < seekStep -> lastSliceStart + seekStep < 2 ^ 63 ->
  forall (m k fuel : nat) (acc : list Z),
    (m < fuel)%nat ->
    0 <= (Z.of_nat k + Z.of_nat m - 1) * seekStep + seekStep ->
    (Z.of_nat k + Z.of_nat m - 1) * seekStep <= lastSliceStart ->
    lastSliceStart < (Z.of_nat k + Z.of_nat m) * seekStep ->
    sliceStartsLoop fuel (Z.of_nat k * seekStep) (lastSliceStart + 1) seekStep acc
    = Ret (acc ++ map (fun j => Z.of_nat j * seekStep) (seq k m)).
Proof.
  intros Hs Hb. induction m as [ | m IH]; intros k fuel acc Hf H0 H1 H2.
  - destruct fuel as [ | fuel]; [ lia | ]. simpl.
    replace (Z.of_nat k * seekStep <? lastSliceStart + 1) with false
      by (symmetry; apply Z.ltb_ge; lia).
    rewrite app_nil_r. reflexivity.
  - destruct fuel as [ | fuel]; [ lia | ]. cbn [sliceStartsLoop].
    assert (Hk : Z.of_nat k * seekStep <= lastSliceStart) by nia.
    replace (Z.of_nat k * seekStep <? lastSliceStart + 1) with true
      by (symmetry; apply Z.ltb_lt; lia).
    rewrite wrap64_small by nia.
    replace (Z.of_nat k * seekStep + seekStep) with (Z.of_nat (S k) * seekStep) by lia.
    rewrite IH by lia.
    rewrite <- app_assoc. reflexivity.
Qed.

Lemma sliceStartsOf_windowStarts (lastSliceStart seekStep : Z) :
  0 < seekStep -> 0 <= lastSliceStart -> lastSliceStart + seekStep < 2 ^ 63 ->
  sliceStartsOf lastSliceStart seekStep = Ret (windowStarts lastSliceStart seekStep).
Proof.
  intros Hs Hl Hb. unfold sliceStartsOf, windowStarts.
  rewrite wrap64_small by lia.
  pose proof (Z.div_pos lastSliceStart seekStep Hl Hs) as Hq.
  pose proof (Z.mul_div_le lastSliceStart seekStep Hs) as Hm.
  pose proof (Z.mul_succ_div_gt lastSliceStart seekStep Hs) as Hg.
  assert (Hqle : lastSliceStart / seekStep <= lastSliceStart)
    by (apply Z.div_le_upper_bound; nia).
  change 0 with (Z.of_nat 0 * seekStep) at 1.
  rewrite (sliceStartsLoop_multiples lastSliceStart seekStep Hs Hb
             (S (Z.to_nat (lastSliceStart / seekStep))) 0) by nia.
  cbn [bind app].
  replace (seekStep =? 0) with false by (symmetry; apply Z.eqb_neq; lia).
  rewrite Z.rem_mod_nonneg by lia.
  destruct (lastSliceStart mod seekStep =? 0); cbn [negb];
    [ rewrite app_nil_r | ]; reflexivity.
Qed.

(** A silent start [s] after [prev] opens a new range: it is not exactly
    one step after [prev], and more than the minimum length past it. *)
Definition opensRange (minSilenceLen seekStep prev s : Z) : Prop :=
  s <> prev + seekStep /\ prev + minSilenceLen < s.

(** The grouping of the silent starts in the words of the specification:
    the starts are cut into runs, in order; a start that opens a range
    begins a new run and every other start joins the run of the start
    before it. *)
Inductive Runs (minSilenceLen seekStep : Z) : list Z -> list (list Z) -> Prop :=
| Runs_nil : Runs minSilenceLen seekStep [] []
| Runs_one (s : Z) : Runs minSilenceLen seekStep [s] [[s]]
| Runs_open (prev s : Z) (rest : list Z) (runs : list (list Z)) :
    opensRange minSilenceLen seekStep prev s ->
    Runs minSilenceLen seekStep (s :: rest) runs ->
    Runs minSilenceLen seekStep (prev :: s :: rest) ([prev] :: runs)
| Runs_join (prev s : Z) (rest : list Z) (run : list Z) (runs : list (list Z)) :
    ~ opensRange minSilenceLen seekStep prev s ->
    Runs minSilenceLen seekStep (s :: rest) (run :: runs) ->
    Runs minSilenceLen seekStep (prev :: s :: rest) ((prev :: run) :: runs).

(** The range of a run: from its first start to its last start plus the
    minimum length. *)
Definition rangeOf (minSilenceLen : Z) (run : list Z) : Z * Z :=
  (hd 0 run, last run 0 + minSilenceLen).

Lemma Runs_head (minSilenceLen seekStep s : Z) (rest : list Z) (runs : list (list Z)) :
  Runs minSilenceLen seekStep (s :: rest) runs ->
  exists run' runs', runs = (s :: run') :: runs'.
Proof.
  intros H. inversion H; subst; eauto.
Qed.

Lemma Runs_concat (minSilenceLen seekStep : Z) (starts : list Z) (runs : list (list Z)) :
  Runs minSilenceLen seekStep starts runs -> concat runs = starts /\ ~ In [] runs.
Proof.
  induction 1 as [ | s | prev s rest runs Ho H [IH1 IH2] | prev s rest run runs Hj H [IH1 IH2]];
    simpl.
  - auto.
  - split; [ reflexivity | intros [E | []]; discriminate ].
  - split; [ rewrite IH1; reflexivity | ].
    intros [E | E]; [ discriminate | contradiction ].
  - simpl in IH1. split; [ rewrite IH1; reflexivity | ].
    intros [E | E]; [ discriminate | ]. apply IH2. right. exact E.
Qed.

Lemma combineLoop_Runs (minSilenceLen seekStep : Z) (rest : list Z) :
  forall (prevI currentRangeStart : Z) (acc : list (Z * Z)),
    Forall (fun s => wrap64 (s + minSilenceLen) = s + minSilenceLen
                     /\ wrap64 (s + seekStep) = s + seekStep) (prevI :: rest) ->
    exists run runs,
      Runs minSilenceLen seekStep (prevI :: rest) (run :: runs)
      /\ combineLoop minSilenceLen seekStep rest prevI currentRangeStart acc
         = acc ++ (currentRangeStart, last run 0 + minSilenceLen)
                  :: map (rangeOf minSilenceLen) runs.
Proof.
  induction rest as [ | s rest IH]; intros prevI cur acc Hb.
  - exists [prevI], []. split; [ constructor | ].
    inversion Hb as [ | ? ? [Hm _] _]; subst. simpl. rewrite Hm. reflexivity.
  - inversion Hb as [ | ? ? [Hm Hs] Hb']; subst. cbn [combineLoop]. rewrite Hm, Hs.
    destruct (negb (s =? prevI + seekStep) && (prevI + minSilenceLen <? s)) eqn:E.
    + apply andb_prop in E. destruct E as [E1 E2].
      apply negb_true_iff in E1. apply Z.eqb_neq in E1. apply Z.ltb_lt in E2.
      destruct (IH s s (acc ++ [(cur, prevI + minSilenceLen)]) Hb') as [run [runs [HR HC]]].
      exists [prevI], (run :: runs). split.
      * apply Runs_open; [ split; assumption | exact HR ].
      * rewrite HC, <- app_assoc. cbn [app map last]. unfold rangeOf at 2.
        destruct (Runs_head _ _ _ _ _ HR) as [run' [runs' Heq]].
        inversion Heq; subst. reflexivity.
    + destruct (IH s cur acc Hb') as [run [runs [HR HC]]].
      exists (prevI :: run), runs. split.
      * apply Runs_join; [ | exact HR ].
        intros [O1 O2]. apply andb_false_iff in E. destruct E as [E | E].
        -- apply negb_false_iff in E. apply Z.eqb_eq in E. contradiction.
        -- apply Z.ltb_ge in E. lia.
      * rewrite HC.
        destruct (Runs_head _ _ _ _ _ HR) as [run' [runs' Heq]].
        inversion Heq; subst. reflexivity.
Qed.

Lemma combineRanges_Runs (minSilenceLen seekStep : Z) (starts : list Z) :
  Forall (fun s => wrap64 (s + minSilenceLen) = s + minSilenceLen
                   /\ wrap64 (s + seekStep) = s + seekStep) starts ->
  exists runs,
    Runs minSilenceLen seekStep starts runs
    /\ combineRanges minSilenceLen seekStep starts = map (rangeOf minSilenceLen) runs.
Proof.
  intros Hb. destruct starts as [ | s rest].
  - exists []. split; [ constructor | reflexivity ].
  - destruct (combineLoop_Runs minSilenceLen seekStep rest s s [] Hb) as [run [runs [HR HC]]].
    exists (run :: runs). split; [ exact HR | ].
    unfold combineRanges. rewrite HC. cbn [app map]. unfold rangeOf at 2.
    destruct (Runs_head _ _ _ _ _ HR) as [run' [runs' Heq]].
    inversion Heq; subst. reflexivity.
Qed.

(** Whether the window starting at [i] is silent. *)
Definition silentAt (ops : audioop.Package) (vol : volume.Package) (seg : AudioSegment)
    (minSilenceLen : Z) (silenceThresh : Volume) (i : Z) : bool :=
  match Slice ops seg i (i + minSilenceLen) with
  | Ret audioSlice => F64.leb (RMS ops audioSlice) (silThreshOf vol seg silenceThresh)
  | _ => false
  end.

Definition isRet {A : Type} (x : outcome A) : bool :=
  match x with
  | Ret _ => true
  | _ => false
  end.

Lemma filterM_windows (ops : audioop.Package) (vol : volume.Package) (seg : AudioSegment)
    (minSilenceLen : Z) (silenceThresh : Volume) (starts : list Z) :
  Forall (fun i => wrap64 (i + minSilenceLen) = i + minSilenceLen) starts ->
  forallb (fun i => isRet (Slice ops seg i (i + minSilenceLen))) starts = true ->
  filterM (windowSilent ops seg minSilenceLen (silThreshOf vol seg silenceThresh)) starts
  = Ret (filter (silentAt ops vol seg minSilenceLen silenceThresh) starts).
Proof.
  induction starts as [ | i rest IH]; intros Hb Hr; [ reflexivity | ].
  inversion Hb as [ | ? ? Hi Hb']; subst.
  cbn [forallb] in Hr. apply andb_prop in Hr. destruct Hr as [Hr Hr'].
  cbn [filterM filter]. unfold windowSilent at 1, silentAt at 1. rewrite Hi.
  destruct (Slice ops seg i (i + minSilenceLen)) as [a | | | ]; try discriminate.
  cbn [bind]. rewrite (IH Hb' Hr'). cbn [bind]. reflexivity.
Qed.

(** C5: when the duration is below the minimum silence length the result
    is empty.  Otherwise (for a positive step, and while the positions
    stay within int64) the window starts are exactly the multiples of the
    step in [0, Duration - minSilenceLen] and that boundary itself; and
    when each of these windows can be sliced, the result is one range
    [first start, last start + minSilenceLen] for every run of the silent
    starts, a new run being opened only by a start that is not one step
    after the start before it and more than minSilenceLen past it. *)
Theorem DetectSilence_windows_and_ranges (ops : audioop.Package) (vol : volume.Package)
    (seg : AudioSegment) (minSilenceLen : Z) (silenceThresh : Volume) (seekStep : Z) :
  0 < seekStep -> 0 <= minSilenceLen -> Duration seg + seekStep < 2 ^ 63 ->
  (Duration seg < minSilenceLen ->
   DetectSilence ops vol seg minSilenceLen silenceThresh seekStep = Ret [])
  /\ (minSilenceLen <= Duration seg ->
      let lastSliceStart := Duration seg - minSilenceLen in
      (forall i, In i (windowStarts lastSliceStart seekStep)
                 <-> 0 <= i <= lastSliceStart
                     /\ (i mod seekStep = 0 \/ i = lastSliceStart))
      /\ (forallb (fun i => isRet (Slice ops seg i (i + minSilenceLen)))
            (windowStarts lastSliceStart seekStep) = true ->
          exists runs,
            Runs minSilenceLen seekStep
              (filter (silentAt ops vol seg minSilenceLen silenceThresh)
                 (windowStarts lastSliceStart seekStep)) runs
            /\ DetectSilence ops vol seg minSilenceLen silenceThresh seekStep
               = Ret (map (rangeOf minSilenceLen) runs))).
Proof.
  intros Hs Hm Hb. split.
  - intros Hd. unfold DetectSilence.
    replace (Duration seg <? minSilenceLen) with true by (symmetry; apply Z.ltb_lt; lia).
    reflexivity.
  - intros Hd lastSliceStart.
    assert (Hl : 0 <= lastSliceStart) by (unfold lastSliceStart; lia).
    pose proof (Duration_range seg) as Hr.
    split; [ intros i; apply windowStarts_In; assumption | ].
    intros Hok. unfold DetectSilence.
    replace (Duration seg <? minSilenceLen) with false by (symmetry; apply Z.ltb_ge; lia).
    rewrite wrap64_small by lia. fold lastSliceStart.
    rewrite sliceStartsOf_windowStarts by (unfold lastSliceStart; lia).
    cbn [bind].
    assert (Hin : forall i, In i (windowStarts lastSliceStart seekStep) ->
                            0 <= i <= lastSliceStart)
      by (intros i Hi; apply windowStarts_In in Hi; [ tauto | lia | lia ]).
    rewrite filterM_windows.
    + cbn [bind].
      destruct (combineRanges_Runs minSilenceLen seekStep
                  (filter (silentAt ops vol seg minSilenceLen silenceThresh)
                     (windowStarts lastSliceStart seekStep))) as [runs [HR HC]].
      * apply Forall_forall. intros i Hi. apply filter_In in Hi. destruct Hi as [Hi _].
        apply Hin in Hi. unfold lastSliceStart in Hi.
        split; apply wrap64_small; lia.
      * exists runs. split; [ exact HR | rewrite HC; reflexivity ].
    + apply Forall_forall. intros i Hi. apply Hin in Hi. unfold lastSliceStart in Hi.
      apply wrap64_small; lia.
    + exact Hok.
Qed.

(** Six 16-bit mono frames at 1000 Hz: silent, silent, loud, loud, silent,
    silent. *)
Definition quietLoudQuiet : AudioSegment :=
  mono16 1000 [x00; x00; x00; x00; xff; x7f; xff; x7f; x00; x00; x00; x00].

Lemma DetectSilence_windows_and_ranges_witness :
  (In 5 (windowStarts 5 2) /\ ~ In 3 (windowStarts 5 2))
  /\ exists runs,
       Runs 1 2 [0; 4; 5] runs
       /\ DetectSilence modelOps (constVolume half) quietLoudQuiet 1 F64.zero 2
          = Ret (map (rangeOf 1) runs).
Proof.
  destruct (DetectSilence_windows_and_ranges modelOps (constVolume half) quietLoudQuiet
              1 F64.zero 2) as [_ H]; [ lia | lia | vm_compute; reflexivity | ].
  destruct H as [Hin Hex]; [ vm_compute; discriminate | ].
  change (Duration quietLoudQuiet - 1) with 5 in Hin, Hex.
  split.
  - split.
    + apply Hin. split; [ lia | right; reflexivity ].
    + intros H3. apply Hin in H3. destruct H3 as [_ [H3 | H3]]; discriminate.
  - destruct Hex as [runs [HR HD]]; [ vm_compute; reflexivity | ].
    exists runs. split; [ | exact HD ].
    exact HR.
Defined.

(** Consecutive ranges of a list: each one begins after the end of the one
    before it. *)
Fixpoint separated (ranges : list (Z * Z)) : Prop :=
  match ranges with
  | r :: ((r' :: _) as rest) => snd r < fst r' /\ separated rest
  | _ => True
  end.

Lemma separated_app (l : list (Z * Z)) (a b : Z * Z) :
  separated (l ++ [a]) -> snd a < fst b -> separated (l ++ [a; b]).
Proof.
  induction l as [ | x l IH]; intros H Hab.
  - simpl. auto.
  - destruct l as [ | y l].
    + simpl in *. tauto.
    + change ((x :: y :: l) ++ [a; b]) with (x :: ((y :: l) ++ [a; b])).
      change ((x :: y :: l) ++ [a]) with (x :: ((y :: l) ++ [a])) in H.
      change (separated (x :: (y :: l) ++ [a])) with
        (snd x < fst y /\ separated ((y :: l) ++ [a])) in H.
      change (snd x < fst y /\ separated ((y :: l) ++ [a; b])).
      destruct H as [H1 H2]. split; [ exact H1 | apply IH; assumption ].
Qed.

Lemma separated_last_end (acc : list (Z * Z)) (c e e' : Z) :
  separated (acc ++ [(c, e)]) -> separated (acc ++ [(c, e')]).
Proof.
  induction acc as [ | x acc IH]; intros H; [ exact I | ].
  destruct acc as [ | y acc].
  - simpl in *. tauto.
  - change (snd x < fst y /\ separated ((y :: acc) ++ [(c, e')])).
    change (snd x < fst y /\ separated ((y :: acc) ++ [(c, e)])) in H.
    destruct H as [H1 H2]. split; [ exact H1 | apply IH; exact H2 ].
Qed.

Lemma combineLoop_separated (minSilenceLen seekStep : Z) (rest : list Z) :
  forall (prevI currentRangeStart : Z) (acc : list (Z * Z)),
    Forall (fun s => wrap64 (s + minSilenceLen) = s + minSilenceLen) (prevI :: rest) ->
    separated (acc ++ [(currentRangeStart, prevI + minSilenceLen)]) ->
    separated (combineLoop minSilenceLen seekStep rest prevI currentRangeStart acc).
Proof.
  induction rest as [ | s rest IH]; intros prevI cur acc Hb Hsep.
  - inversion Hb as [ | ? ? Hm _]; subst. cbn [combineLoop]. rewrite Hm. exact Hsep.
  - inversion Hb as [ | ? ? Hm Hb']; subst. cbn [combineLoop]. rewrite Hm.
    inversion Hb' as [ | ? ? Hs _]; subst.
    destruct (negb (s =? wrap64 (prevI + seekStep)) && (prevI + minSilenceLen <? s)) eqn:E.
    + apply andb_prop in E. destruct E as [_ E2]. apply Z.ltb_lt in E2.
      apply IH; [ exact Hb' | ].
      rewrite <- app_assoc. cbn [app].
      apply separated_app; [ exact Hsep | cbn [fst snd]; lia ].
    + apply IH; [ exact Hb' | ].
      exact (separated_last_end _ _ _ _ Hsep).
Qed.

(** X1: the ranges DetectSilence returns never overlap or touch: every
    range begins strictly after the end of the range before it (for a
    positive step and a minimum length that is not negative, while the
    positions stay within int64). *)
Theorem DetectSilence_ranges_separated (ops : audioop.Package) (vol : volume.Package)
    (seg : AudioSegment) (minSilenceLen : Z) (silenceThresh : Volume) (seekStep : Z)
    (ranges : list (Z * Z)) :
  0 < seekStep -> 0 <= minSilenceLen -> Duration seg + seekStep < 2 ^ 63 ->
  DetectSilence ops vol seg minSilenceLen silenceThresh seekStep = Ret ranges ->
  separated ranges.
Proof.
  intros Hs Hm Hb H. unfold DetectSilence in H.
  destruct (Duration seg <? minSilenceLen) eqn:Ed.
  - inversion H. exact I.
  - apply Z.ltb_ge in Ed. pose proof (Duration_range seg) as Hr.
    rewrite wrap64_small in H by lia.
    rewrite sliceStartsOf_windowStarts in H by lia.
    cbn [bind] in H.
    destruct (filterM _ _) as [silenceStarts | | | ] eqn:Ef; try discriminate.
    cbn [bind] in H. inversion H. subst ranges. clear H.
    assert (Hin : forall l f r, filterM f l = Ret r -> forall i, In i r -> In i l).
    { induction l as [ | a l IH]; intros f r Hf i Hi; cbn [filterM] in Hf.
      - inversion Hf. subst. contradiction.
      - destruct (f a) as [b | | | ]; try discriminate. cbn [bind] in Hf.
        destruct (filterM f l) as [r' | | | ] eqn:Er; try discriminate.
        cbn [bind] in Hf. inversion Hf. subst r.
        destruct b; [ destruct Hi as [<- | Hi]; [ left; reflexivity | ] | ];
          right; eapply IH; eauto. }
    assert (Hbound : Forall (fun s => wrap64 (s + minSilenceLen) = s + minSilenceLen)
                       silenceStarts).
    { apply Forall_forall. intros i Hi. apply (Hin _ _ _ Ef) in Hi.
      apply windowStarts_In in Hi; [ | lia | lia ].
      apply wrap64_small. lia. }
    destruct silenceStarts as [ | s rest]; [ exact I | ].
    unfold combineRanges. apply combineLoop_separated; [ exact Hbound | exact I ].
Qed.

Lemma DetectSilence_ranges_separated_witness :
  separated [(0, 1); (4, 6)].
Proof.
  apply (DetectSilence_ranges_separated modelOps (constVolume half) quietLoudQuiet
           1 F64.zero 2 [(0, 1); (4, 6)]); [ lia | lia | vm_compute; reflexivity | ].
  vm_compute. reflexivity.
Defined.

(** ** The complement of the silent ranges *)

(** The gaps before each silent range, from [prevEnd] on. *)
Fixpoint gaps (prevEnd : Z) (silentRanges : list (Z * Z)) : list (Z * Z) :=
  match silentRanges with
  | [] => []
  | r :: rest => (prevEnd, fst r) :: gaps (snd r) rest
  end.

Lemma last_cons_default {A : Type} (l : list A) (x d d' : A) :
  last (x :: l) d = last (x :: l) d'.
Proof.
  revert x. induction l as [ | y l IH]; intros x; [ reflexivity | ].
  change (last (y :: l) d = last (y :: l) d'). apply IH.
Qed.

Lemma gapsLoop_gaps (silentRanges : list (Z * Z)) :
  forall (prevEndI endI : Z) (acc : list (Z * Z)),
    gapsLoop silentRanges prevEndI endI acc
    = (acc ++ gaps prevEndI silentRanges,
       snd (last silentRanges (0, prevEndI)), snd (last silentRanges (0, endI))).
Proof.
  induction silentRanges as [ | r rest IH]; intros prevEndI endI acc.
  - cbn [gapsLoop gaps last snd]. rewrite app_nil_r. reflexivity.
  - cbn [gapsLoop gaps]. rewrite IH, <- app_assoc. cbn [app].
    destruct rest as [ | r' rest]; [ reflexivity | ].
    change (last (r :: r' :: rest) (0, prevEndI)) with (last (r' :: rest) (0, prevEndI)).
    change (last (r :: r' :: rest) (0, endI)) with (last (r' :: rest) (0, endI)).
    rewrite (last_cons_default rest r' (0, snd r) (0, prevEndI)).
    rewrite (last_cons_default rest r' (0, endI) (0, prevEndI)).
    reflexivity.
Qed.

(** X2: the complement step of DetectNonsilent always returns, and nothing
    is ever dropped from it: no silence gives the one range [0, length]; a
    first silent range [0, length] gives no range; otherwise the result is
    the gap before every silent range, the first one starting at 0, then
    the remainder after the last silent range when that does not end at
    the length. *)
Theorem nonsilentOf_gaps (silentRanges : list (Z * Z)) (lenSeg : Z) :
  nonsilentOf silentRanges lenSeg
  = Ret match silentRanges with
        | [] => [(0, lenSeg)]
        | r0 :: _ =>
            if (fst r0 =? 0) && (snd r0 =? lenSeg) then []
            else
              let lastEnd := snd (last silentRanges (0, 0)) in
              gaps 0 silentRanges
              ++ (if lastEnd =? lenSeg then [] else [(lastEnd, lenSeg)])
        end.
Proof.
  destruct silentRanges as [ | r0 rest]; [ reflexivity | ].
  unfold nonsilentOf.
  destruct ((fst r0 =? 0) && (snd r0 =? lenSeg)); [ reflexivity | ].
  rewrite gapsLoop_gaps. cbn [app]. cbv zeta.
  set (lastEnd := snd (last (r0 :: rest) (0, 0))).
  cbn [gaps app].
  destruct (lastEnd =? lenSeg); cbn [negb app cmp_Equal];
    rewrite ?app_nil_r; reflexivity.
Qed.

(** X3: the complement step of DetectNonsilentConcurrent, which has no
    comparison at its end, computes what the one of DetectNonsilent does,
    for every list of silent ranges and every length. *)
Theorem nonsilentOfConcurrent_agrees (silentRanges : list (Z * Z)) (lenSeg : Z) :
  nonsilentOf silentRanges lenSeg = Ret (nonsilentOfConcurrent silentRanges lenSeg).
Proof.
  destruct silentRanges as [ | r0 rest]; [ reflexivity | ].
  unfold nonsilentOf, nonsilentOfConcurrent.
  destruct ((fst r0 =? 0) && (snd r0 =? lenSeg)); [ reflexivity | ].
  rewrite gapsLoop_gaps. cbn [gaps app].
  destruct (negb (_ =? lenSeg)); cbn [app cmp_Equal]; reflexivity.
Qed.

(** ** More on the constructor *)

Lemma convert24_ragged (n : nat) (k : nat) :
  forall (rest : list byte) (offset : Z) (buf : list byte),
    (length rest = 3 * k + 1 \/ length rest = 3 * k + 2)%nat ->
    0 <= offset -> offset + 4 * Z.of_nat k <= Z.of_nat n ->
    convert24 rest offset {| v_off := 0; v_len := n; v_cap := n |} buf
    = Panic IndexOutOfRange.
Proof.
  induction k as [ | k IH]; intros rest offset buf Hl Ho Hb.
  - destruct rest as [ | b0 [ | b1 [ | b2 rest']]]; simpl in Hl; try lia; reflexivity.
  - destruct rest as [ | b0 [ | b1 [ | b2 rest']]]; simpl in Hl; try lia.
    cbn [convert24]. unfold view_from. cbn [v_len v_off v_cap].
    replace ((0 <=? offset) && (offset <=? Z.of_nat n)) with true
      by (symmetry; apply andb_true_intro; split; apply Z.leb_le; lia).
    cbn [bind]. apply IH; lia.
Qed.

(** X4: for a buffer declared with sample width 3 whose length is not a
    multiple of 3, the constructor panics with an index out of range: the
    loop reads [data[i+1]] and [data[i+2]] past the end of the last,
    incomplete sample. *)
Theorem NewAudioSegment_width3_ragged (d : list byte) (opts : list AudioSegmentOption) :
  sampleWidth (declared d opts) = 3 -> (length d mod 3 <> 0)%nat ->
  NewAudioSegment d opts = Panic IndexOutOfRange.
Proof.
  intros Hw Hm.
  pose proof (Nat.div_mod_eq (length d) 3) as Hd.
  pose proof (Nat.mod_upper_bound (length d) 3 ltac:(lia)) as Hu.
  set (k := (length d / 3)%nat) in *.
  unfold NewAudioSegment. fold (declared d opts). rewrite Hw.
  change (3 =? 3) with true. cbv iota. unfold make.
  assert (Hq : Z.quot (blen d) 3 = Z.of_nat k).
  { unfold blen. rewrite Z.quot_div_nonneg by lia.
    rewrite Hd. symmetry. apply Z.div_unique with (r := Z.of_nat (length d mod 3)); lia. }
  rewrite Hq.
  rewrite (convert24_ragged _ k); [ reflexivity | lia | lia | unfold blen; lia ].
Qed.

Lemma NewAudioSegment_width3_ragged_witness :
  NewAudioSegment [x01; x02; x83; x04] [SampleWidth 3] = Panic IndexOutOfRange.
Proof.
  apply (NewAudioSegment_width3_ragged [x01; x02; x83; x04] [SampleWidth 3]).
  - reflexivity.
  - discriminate.
Defined.

(** ** More on Slice *)

Lemma length_sub (bs : list byte) (lo hi : Z) :
  0 <= lo <= hi -> hi <= blen bs -> blen (sub bs lo hi) = hi - lo.
Proof.
  intros H1 H2. unfold sub, blen in *.
  rewrite length_firstn, length_skipn. lia.
Qed.

(** X5: Slice never fills in silence.  Whenever it returns a segment (the
    sample width is not 3, and Mul returns nil beside an error), the
    segment has the format of its parent and exactly the bytes between the
    start index and the end index clamped to the length of the data, so it
    is never longer than what the parent holds. *)
Theorem Slice_returns_extracted_bytes (ops : audioop.Package) (seg : AudioSegment)
    (start end_ : Z) (s : AudioSegment) :
  nilOnError ops -> sampleWidth seg <> 3 ->
  Slice ops seg start end_ = Ret s ->
  data s = sub (data seg) (startIndexOf seg start) (endIndexOf seg end_)
  /\ blen (data s) = endIndexOf seg end_ - startIndexOf seg start
  /\ endIndexOf seg end_ <= blen (data seg)
  /\ sampleWidth s = sampleWidth seg /\ frameRate s = frameRate seg
  /\ frameWidth s = frameWidth seg /\ channels s = channels seg.
Proof.
  intros Hnil Hw H.
  destruct (Slice_Ret ops seg start end_ s Hnil Hw H) as [_ [Hi Hs]].
  assert (He : endIndexOf seg end_ <= blen (data seg)).
  { unfold endIndexOf. destruct (blen (data seg) <? startIndexOf seg end_) eqn:E;
      [ lia | apply Z.ltb_ge in E; lia ]. }
  subst s. cbn [data sampleWidth frameRate frameWidth channels].
  split; [ reflexivity | ]. split; [ apply length_sub; lia | ].
  split; [ exact He | ]. repeat split.
Qed.

Lemma nilOnError_model : nilOnError modelOps.
Proof.
  intros d w f H. unfold modelOps, audioop_model.package in *. cbn [audioop.Mul] in *.
  unfold audioop_model.Mul, audioop_model.checked in *.
  destruct (audioop_model.checkParameters _ _); [ reflexivity | ].
  cbn [snd] in H. congruence.
Qed.

Lemma Slice_returns_extracted_bytes_witness :
  data short3000 = sub (data short3000) (startIndexOf short3000 0) (endIndexOf short3000 1)
  /\ blen (data short3000) = endIndexOf short3000 1 - startIndexOf short3000 0
  /\ endIndexOf short3000 1 <= blen (data short3000)
  /\ sampleWidth short3000 = sampleWidth short3000
  /\ frameRate short3000 = frameRate short3000
  /\ frameWidth short3000 = frameWidth short3000
  /\ channels short3000 = channels short3000.
Proof.
  apply (Slice_returns_extracted_bytes modelOps short3000 0 1 short3000).
  - exact nilOnError_model.
  - discriminate.
  - vm_compute. reflexivity.
Defined.

Lemma slice_no_err (bs : list byte) (lo hi : Z) (e : error) : slice bs lo hi <> Err e.
Proof. unfold slice. destruct (_ && _); discriminate. Qed.

Lemma bytes_Repeat_no_err (b : list byte) (count : Z) (e : error) :
  bytes_Repeat b count <> Err e.
Proof.
  unfold bytes_Repeat.
  destruct (count =? 0); [ discriminate | ].
  destruct (count <? 0); [ discriminate | ].
  destruct (2 ^ 63 <=? _); discriminate.
Qed.

(** X6: the two argument errors of Slice.  It fails with "start should be
    smaller than end" exactly when the end is before the start, and with
    "start or end should be positive" exactly when the end is not before
    the start and one of the two is negative; no later step returns either
    error. *)
Theorem Slice_argument_errors (ops : audioop.Package) (seg : AudioSegment) (start end_ : Z) :
  (Slice ops seg start end_ = Err (AudioSegmentError "start should be smaller than end" [])
   <-> end_ < start)
  /\ (Slice ops seg start end_ = Err (AudioSegmentError "start or end should be positive" [])
      <-> start <= end_ /\ (start < 0 \/ end_ < 0)).
Proof.
  assert (Hlate : forall m,
    start <= end_ -> 0 <= start -> 0 <= end_ ->
    Slice ops seg start end_ <> Err (AudioSegmentError m [])).
  { intros m H1 H2 H3 H. unfold Slice in H.
    replace (end_ <? start) with false in H by (symmetry; apply Z.ltb_ge; lia).
    replace ((start <? 0) || (end_ <? 0)) with false in H
      by (symmetry; apply orb_false_intro; apply Z.ltb_ge; lia).
    cbv zeta in H.
    match type of H with bind ?c _ = _ => destruct c as [d | e' | | ] eqn:Es end;
      cbn [bind] in H; try discriminate.
    - destruct (frameWidth seg =? 0); [ discriminate | ].
      match type of H with bind ?c _ = _ => destruct c as [d' | e' | | ] eqn:Ec end;
        cbn [bind] in H; try discriminate.
      + exact (derive_no_err _ _ _ _ H).
      + destruct (0 <? _); [ | discriminate ].
        destruct (F64.ltb _ _); [ inversion Ec; subst; discriminate | ].
        match type of Ec with bind ?c _ = _ => destruct c as [fr | e'' | | ] eqn:Ef end;
          cbn [bind] in Ec; try discriminate.
        * destruct (audioop.Mul ops fr (sampleWidth seg) F64.zero) as [sil [er | ]];
            [ | discriminate ].
          match type of Ec with bind (bytes_Repeat ?x ?n) _ = _ =>
            pose proof (bytes_Repeat_no_err x n e') as Hrep;
            destruct (bytes_Repeat x n) end;
            cbn [bind] in Ec; try discriminate.
          congruence.
        * exact (slice_no_err _ _ _ _ Ef).
    - exact (slice_no_err _ _ _ _ Es). }
  assert (Hfirst : end_ < start ->
    Slice ops seg start end_ = Err (AudioSegmentError "start should be smaller than end" [])).
  { intros H. unfold Slice.
    replace (end_ <? start) with true by (symmetry; apply Z.ltb_lt; lia). reflexivity. }
  assert (Hsecond : start <= end_ -> start < 0 \/ end_ < 0 ->
    Slice ops seg start end_ = Err (AudioSegmentError "start or end should be positive" [])).
  { intros H1 H2. unfold Slice.
    replace (end_ <? start) with false by (symmetry; apply Z.ltb_ge; lia).
    replace ((start <? 0) || (end_ <? 0)) with true; [ reflexivity | ].
    symmetry. apply orb_true_iff. rewrite !Z.ltb_lt. exact H2. }
  destruct (Z.lt_ge_cases end_ start) as [Hlt | Hge].
  - specialize (Hfirst Hlt). rewrite Hfirst. split; split; intros H;
      try lia; try reflexivity; try discriminate.
  - destruct (Z.lt_ge_cases start 0) as [Hs | Hs];
      [ | destruct (Z.lt_ge_cases end_ 0) as [He | He] ].
    + rewrite (Hsecond Hge (or_introl Hs)). split; split; intros H;
        try lia; try reflexivity; try discriminate.
    + rewrite (Hsecond Hge (or_intror He)). split; split; intros H;
        try lia; try reflexivity; try discriminate.
    + split; split; intros H; try lia;
        exfalso; exact (Hlate _ Hge Hs He H).
Qed.

(** X7: Slice never hands an error of the arithmetic package to its caller:
    the errors it returns are its own. *)
Theorem Slice_no_arithmetic_error (ops : audioop.Package) (seg : AudioSegment)
    (start end_ : Z) (e : audioop.error) :
  Slice ops seg start end_ <> Err (ArithmeticError e).
Proof.
  intros H. unfold Slice in H.
  destruct (end_ <? start); [ discriminate | ].
  destruct ((start <? 0) || (end_ <? 0)); [ discriminate | ].
  cbv zeta in H.
  match type of H with bind ?c _ = _ => destruct c as [d | e' | | ] eqn:Es end;
    cbn [bind] in H; try discriminate.
  - destruct (frameWidth seg =? 0); [ discriminate | ].
    match type of H with bind ?c _ = _ => destruct c as [d' | e' | | ] eqn:Ec end;
      cbn [bind] in H; try discriminate.
    + exact (derive_no_err _ _ _ _ H).
    + destruct (0 <? _); [ | discriminate ].
      destruct (F64.ltb _ _); [ inversion Ec; subst; discriminate | ].
      match type of Ec with bind ?c _ = _ => destruct c as [fr | e'' | | ] eqn:Ef end;
        cbn [bind] in Ec; try discriminate.
      * destruct (audioop.Mul ops fr (sampleWidth seg) F64.zero) as [sil [er | ]];
          [ | discriminate ].
        match type of Ec with bind (bytes_Repeat ?x ?n) _ = _ =>
          pose proof (bytes_Repeat_no_err x n e') as Hrep;
          destruct (bytes_Repeat x n) end;
          cbn [bind] in Ec; try discriminate.
        congruence.
      * exact (slice_no_err _ _ _ _ Ef).
  - exact (slice_no_err _ _ _ _ Es).
Qed.

(** X8: Slice reads its bounds only through their clamping to the
    duration: for bounds in order and not negative, slicing from [start]
    to [end_] is slicing from [min start Duration] to [min end_ Duration];
    in particular an end past the audio slices to the end of the audio. *)
Theorem Slice_clamps_to_duration (ops : audioop.Package) (seg : AudioSegment)
    (start end_ : Z) :
  0 <= start <= end_ -> 0 <= Duration seg ->
  Slice ops seg start end_
  = Slice ops seg (Z.min start (Duration seg)) (Z.min end_ (Duration seg)).
Proof.
  intros H HD. unfold Slice.
  replace (end_ <? start) with false by (symmetry; apply Z.ltb_ge; lia).
  replace (Z.min end_ (Duration seg) <? Z.min start (Duration seg)) with false
    by (symmetry; apply Z.ltb_ge; lia).
  replace ((start <? 0) || (end_ <? 0)) with false
    by (symmetry; apply orb_false_intro; apply Z.ltb_ge; lia).
  replace ((Z.min start (Duration seg) <? 0) || (Z.min end_ (Duration seg) <? 0)) with false
    by (symmetry; apply orb_false_intro; apply Z.ltb_ge; lia).
  assert (Hc : forall x, (if Duration seg <? x then Duration seg else x)
                         = Z.min x (Duration seg)).
  { intros x. destruct (Duration seg <? x) eqn:E;
      [ apply Z.ltb_lt in E | apply Z.ltb_ge in E ]; lia. }
  cbv zeta. rewrite !Hc.
  rewrite <- !Z.min_assoc, !Z.min_id. reflexivity.
Qed.

Lemma Slice_clamps_to_duration_witness :
  Slice modelOps quietThenLoud 1 1000 = Slice modelOps quietThenLoud 1 4.
Proof.
  apply (Slice_clamps_to_duration modelOps quietThenLoud 1 1000).
  - lia.
  - vm_compute. discriminate.
Defined.

(** X9: on a segment whose frame width is 0, Slice with bounds in order
    and not negative panics: the count of missing frames divides by the
    frame width. *)
Theorem Slice_zero_frameWidth (ops : audioop.Package) (seg : AudioSegment)
    (start end_ : Z) :
  frameWidth seg = 0 -> 0 <= start <= end_ ->
  Slice ops seg start end_ = Panic IntegerDivideByZero.
Proof.
  intros Hf H. unfold Slice.
  replace (end_ <? start) with false by (symmetry; apply Z.ltb_ge; lia).
  replace ((start <? 0) || (end_ <? 0)) with false
    by (symmetry; apply orb_false_intro; apply Z.ltb_ge; lia).
  cbv zeta. rewrite Hf, !Z.mul_0_r.
  change (wrap64 0) with 0.
  replace (blen (data seg) <? 0) with false
    by (symmetry; apply Z.ltb_ge; unfold blen; lia).
  rewrite slice_ok by (unfold blen; lia).
  reflexivity.
Qed.

Lemma Slice_zero_frameWidth_witness :
  Slice modelOps
    {| sampleWidth := 2; frameRate := 8000; frameWidth := 0; channels := 1;
       data := [x01; x00] |} 0 10
  = Panic IntegerDivideByZero.
Proof.
  apply Slice_zero_frameWidth; [ reflexivity | lia ].
Defined.

(** ** Forks, sync and Append *)

Lemma arith_cases {A : Type} (r : audioop.result A) :
  (exists e, arith r = Err (ArithmeticError e)) \/ arith r = Ret (fst r).
Proof.
  unfold arith. destruct (snd r) as [e | ]; [ left; exists e | right ]; reflexivity.
Qed.

Lemma ForkWithSampleWidth_cases (ops : audioop.Package) (seg : AudioSegment) (w' : Z) :
  sampleWidth seg <> 3 ->
  (w' = sampleWidth seg -> ForkWithSampleWidth ops seg w' = Ret seg)
  /\ (w' <> sampleWidth seg ->
      (exists e, ForkWithSampleWidth ops seg w' = Err (ArithmeticError e))
      \/ (exists d,
            ForkWithSampleWidth ops seg w'
            = Ret {| sampleWidth := wrap_u16 w'; frameRate := frameRate seg;
                     frameWidth := wrap_u32 (wrap64 (channels seg * w'));
                     channels := channels seg; data := d |})).
Proof.
  intros H3. split.
  - intros ->. unfold ForkWithSampleWidth. rewrite Z.eqb_refl. reflexivity.
  - intros Hw. unfold ForkWithSampleWidth.
    apply Z.eqb_neq in Hw. rewrite Hw.
    match goal with |- context [bind ?c _] =>
      assert (H1 : (exists e, c = Err (ArithmeticError e)) \/ exists d, c = Ret d) end.
    { destruct (sampleWidth seg =? 1); [ | right; eexists; reflexivity ].
      destruct (arith_cases (audioop.Bias ops (data seg) 1 (-128))) as [[e He] | He];
        [ left; exists e; exact He | right; eexists; exact He ]. }
    destruct H1 as [[e He] | [d1 Hd1]]; [ left; exists e; rewrite He; reflexivity | ].
    rewrite Hd1. cbn [bind].
    match goal with |- context [bind ?c _] =>
      assert (H2 : (exists e, c = Err (ArithmeticError e)) \/ exists d, c = Ret d) end.
    { destruct (0 <? blen d1); [ | right; eexists; reflexivity ].
      destruct (arith_cases (audioop.Lin2Lin ops d1 (sampleWidth seg) w')) as [[e He] | He];
        [ left; exists e; exact He | right; eexists; exact He ]. }
    destruct H2 as [[e He] | [d2 Hd2]]; [ left; exists e; rewrite He; reflexivity | ].
    rewrite Hd2. cbn [bind].
    match goal with |- context [bind ?c _] =>
      assert (H4 : (exists e, c = Err (ArithmeticError e)) \/ exists d, c = Ret d) end.
    { destruct (w' =? 1); [ | right; eexists; reflexivity ].
      destruct (arith_cases (audioop.Bias ops d2 1 128)) as [[e He] | He];
        [ left; exists e; exact He | right; eexists; exact He ]. }
    destruct H4 as [[e He] | [d3 Hd3]]; [ left; exists e; rewrite He; reflexivity | ].
    rewrite Hd3. cbn [bind]. right. exists d3.
    rewrite derive_plain by exact H3. reflexivity.
Qed.

(** X10: ForkWithSampleWidth on a segment whose sample width is not 3 never
    panics.  With the width the segment has it returns the segment itself;
    with another width it returns an error of the arithmetic package or a
    segment of the new width (as a uint16), whose frame width is the
    channel count times the new width, with the rate and channels of the
    original. *)
Theorem ForkWithSampleWidth_format (ops : audioop.Package) (seg : AudioSegment) (w' : Z) :
  sampleWidth seg <> 3 ->
  (w' = sampleWidth seg -> ForkWithSampleWidth ops seg w' = Ret seg)
  /\ (w' <> sampleWidth seg ->
      (exists e, ForkWithSampleWidth ops seg w' = Err (ArithmeticError e))
      \/ (exists d,
            ForkWithSampleWidth ops seg w'
            = Ret {| sampleWidth := wrap_u16 w'; frameRate := frameRate seg;
                     frameWidth := wrap_u32 (wrap64 (channels seg * w'));
                     channels := channels seg; data := d |})).
Proof. exact (ForkWithSampleWidth_cases ops seg w'). Qed.


Lemma ForkWithSampleWidth_format_witness :
  ForkWithSampleWidth modelOps
    {| sampleWidth := 1; frameRate := 8000; frameWidth := 1; channels := 1;
       data := [x80; x00] |} 1
  = Ret {| sampleWidth := 1; frameRate := 8000; frameWidth := 1; channels := 1;
           data := [x80; x00] |}.
Proof.
  apply (ForkWithSampleWidth_format modelOps
           {| sampleWidth := 1; frameRate := 8000; frameWidth := 1; channels := 1;
              data := [x80; x00] |} 1); [ discriminate | reflexivity ].
Defined.

(** What the model of RMS relies on: forking a 1-byte segment to 2 bytes
    returns a 2-byte segment or an error, and nothing else. *)
Lemma fork_of_narrow (ops : audioop.Package) (seg : AudioSegment) :
  sampleWidth seg = 1 ->
  match ForkWithSampleWidth ops seg 2 with
  | Ret r => sampleWidth r = 2
  | Err _ => True
  | _ => False
  end.
Proof.
  intros H1.
  destruct (ForkWithSampleWidth_cases ops seg 2) as [_ H]; [ lia | ].
  destruct H as [[e He] | [d Hd]]; [ lia | rewrite He; exact I | rewrite Hd; reflexivity ].
Qed.

Lemma mapM_id {A : Type} (f : A -> outcome A) (l : list A) :
  Forall (fun a => f a = Ret a) l -> mapM f l = Ret l.
Proof.
  induction 1 as [ | a l Ha Hl IH]; [ reflexivity | ].
  cbn [mapM]. rewrite Ha. cbn [bind]. rewrite IH. reflexivity.
Qed.

Lemma MaxUint_const (l : list Z) (c : Z) :
  0 <= c -> l <> [] -> Forall (fun x => x = c) l -> MaxUint l = c.
Proof.
  intros Hc Hn H. unfold MaxUint.
  induction H as [ | x l Hx Hl IH]; [ congruence | ].
  subst x. cbn [fold_right]. destruct l as [ | y l].
  - cbn [fold_right]. lia.
  - rewrite IH by discriminate. lia.
Qed.

(** Segments of one format: channel count [c], frame rate [r] and sample
    width [w]. *)
Definition uniform (c r w : Z) (segments : list AudioSegment) : Prop :=
  Forall (fun s => channels s = c /\ frameRate s = r /\ sampleWidth s = w) segments.

Lemma sync_uniform (ops : audioop.Package) (c r w : Z) (segments : list AudioSegment) :
  uniform c r w segments -> segments <> [] ->
  Has ValidChannels c = true -> 0 <= r -> 0 <= w ->
  sync ops segments = Ret segments.
Proof.
  intros Hu Hn Hc Hr Hw. unfold sync.
  assert (Hmap : forall (f : AudioSegment -> Z) (v : Z),
             Forall (fun s => f s = v) segments -> 0 <= v -> MaxUint (map f segments) = v).
  { intros f v Hf Hv. apply MaxUint_const; [ exact Hv | | ].
    - destruct segments; [ congruence | discriminate ].
    - apply Forall_map. exact Hf. }
  assert (Hc0 : 0 <= c).
  { unfold Has, ValidChannels in Hc. cbn [existsb] in Hc.
    destruct (c =? 1) eqn:E1; [ apply Z.eqb_eq in E1; lia | ].
    destruct (c =? 2) eqn:E2; [ apply Z.eqb_eq in E2; lia | discriminate ]. }
  rewrite (Hmap channels c), (Hmap frameRate r), (Hmap sampleWidth w);
    try assumption;
    try (eapply Forall_impl; [ | exact Hu ]; cbv beta; intros s Hs; tauto).
  apply mapM_id. eapply Forall_impl; [ | exact Hu ]. cbv beta.
  intros s [Hsc [Hsr Hsw]].
  unfold ForkWithChannels. rewrite Hc. cbn [negb].
  rewrite <- Hsc, Z.eqb_refl. cbn [bind].
  unfold ForkWithFrameRate. rewrite <- Hsr, Z.eqb_refl. cbn [bind].
  unfold ForkWithSampleWidth. rewrite <- Hsw, Z.eqb_refl. reflexivity.
Qed.

(** X11: sync leaves segments that already share one format as they are:
    for a non-empty list of segments with the same channel count (1 or 2),
    frame rate and sample width, it returns the list itself, with no
    conversion and no call into the arithmetic package. *)
Theorem sync_same_format (ops : audioop.Package) (c r w : Z)
    (segments : list AudioSegment) :
  uniform c r w segments -> segments <> [] ->
  Has ValidChannels c = true -> 0 <= r -> 0 <= w ->
  sync ops segments = Ret segments.
Proof. exact (sync_uniform ops c r w segments). Qed.

Lemma sync_same_format_witness :
  sync modelOps [short3000; mono16 3000 [x05; x00]] = Ret [short3000; mono16 3000 [x05; x00]].
Proof.
  apply (sync_same_format modelOps 1 3000 2).
  - repeat constructor.
  - discriminate.
  - reflexivity.
  - lia.
  - lia.
Defined.

Lemma Append_uniform (ops : audioop.Package) (c r w : Z) (seg : AudioSegment)
    (segments : list AudioSegment) :
  uniform c r w (seg :: segments) ->
  Has ValidChannels c = true -> 0 <= r -> 0 <= w -> w <> 3 ->
  Append ops seg segments
  = Ret {| sampleWidth := sampleWidth seg; frameRate := frameRate seg;
           frameWidth := frameWidth seg; channels := channels seg;
           data := data seg ++ concat (map data segments) |}.
Proof.
  intros Hu Hc Hr Hw H3. unfold Append.
  rewrite (sync_uniform ops c r w) by (try assumption; discriminate).
  cbn [bind]. inversion Hu as [ | ? ? [_ [_ Hsw]] _]; subst.
  rewrite derive_plain by exact H3. reflexivity.
Qed.

(** X12: Append of segments that share one format (channel count 1 or 2,
    sample width not 3) returns a segment of that format whose data is the
    data of the operands, in argument order. *)
Theorem Append_same_format (ops : audioop.Package) (c r w : Z) (seg : AudioSegment)
    (segments : list AudioSegment) :
  uniform c r w (seg :: segments) ->
  Has ValidChannels c = true -> 0 <= r -> 0 <= w -> w <> 3 ->
  Append ops seg segments
  = Ret {| sampleWidth := sampleWidth seg; frameRate := frameRate seg;
           frameWidth := frameWidth seg; channels := channels seg;
           data := data seg ++ concat (map data segments) |}.
Proof. exact (Append_uniform ops c r w seg segments). Qed.

Lemma Append_same_format_witness :
  Append modelOps short3000 [mono16 3000 [x05; x00]; mono16 3000 [x06; x00]]
  = Ret (mono16 3000 [x01; x00; x02; x00; x05; x00; x06; x00]).
Proof.
  apply (Append_same_format modelOps 1 3000 2).
  - repeat constructor.
  - reflexivity.
  - lia.
  - lia.
  - discriminate.
Defined.

(** X13: sync checks the largest channel count of its operands before
    anything else: when that count is not 1 or 2 (6-channel audio, say),
    sync, Append and Overlay with a non-nil overlay fail with "invalid
    channels", even when all operands have the same format. *)
Theorem sync_rejects_many_channels (ops : audioop.Package) (vol : volume.Package)
    (seg : AudioSegment) (segments : list AudioSegment) :
  Has ValidChannels (MaxUint (map channels (seg :: segments))) = false ->
  sync ops (seg :: segments) = Err (AudioSegmentError "invalid channels" [])
  /\ Append ops seg segments = Err (AudioSegmentError "invalid channels" [])
  /\ (forall other config,
        Has ValidChannels (MaxUint (map channels [seg; other])) = false ->
        Overlay ops vol seg (Some other) config
        = Err (AudioSegmentError "invalid channels" [])).
Proof.
  assert (Hs : forall s l,
            Has ValidChannels (MaxUint (map channels (s :: l))) = false ->
            sync ops (s :: l) = Err (AudioSegmentError "invalid channels" [])).
  { intros s l H. unfold sync. cbn [mapM]. unfold ForkWithChannels at 1.
    rewrite H. reflexivity. }
  intros H. split; [ exact (Hs _ _ H) | ]. split.
  - unfold Append. rewrite (Hs _ _ H). reflexivity.
  - intros other config Ho. unfold Overlay. rewrite (Hs _ _ Ho). reflexivity.
Qed.

Lemma sync_rejects_many_channels_witness :
  Append modelOps
    {| sampleWidth := 2; frameRate := 1000; frameWidth := 12; channels := 6;
       data := repeat x01 12 |}
    [{| sampleWidth := 2; frameRate := 1000; frameWidth := 12; channels := 6;
        data := repeat x02 12 |}]
  = Err (AudioSegmentError "invalid channels" []).
Proof.
  apply (sync_rejects_many_channels modelOps (constVolume F64.one)). reflexivity.
Defined.

Lemma firstn_plus {A : Type} (n m : nat) (l : list A) :
  firstn (n + m) l = firstn n l ++ firstn m (skipn n l).
Proof.
  revert l. induction n as [ | n IH]; intros l; [ reflexivity | ].
  destruct l as [ | x l]; [ rewrite !firstn_nil; reflexivity | ].
  cbn [Nat.add firstn skipn app]. rewrite IH. reflexivity.
Qed.




(** ** Overlay *)

Lemma blen_app (a b : list byte) : blen (a ++ b) = blen a + blen b.
Proof. unfold blen. rewrite length_app. lia. Qed.

Lemma blen_nonneg (bs : list byte) : 0 <= blen bs.
Proof. unfold blen. lia. Qed.

Lemma overlayLoop_done (ops : audioop.Package) (vol : volume.Package) (fuel : nat)
    (config : OverlayConfig) (w : Z) (rSegData : list byte) (pos : Z)
    (otherSegData dest : list byte) :
  overlayLoop ops vol fuel config w rSegData 0 pos otherSegData dest = Ret (dest, pos).
Proof. destruct fuel; reflexivity. Qed.

(** Every pass of the mixing succeeds on buffers of one length that is a
    multiple of the sample width, and keeps that length. *)
Definition mixes (ops : audioop.Package) (vol : volume.Package) (config : OverlayConfig)
    (w : Z) : Prop :=
  forall base other : list byte,
    blen base = blen other -> (w | blen other) ->
    exists r, mix ops vol config w base other = Ret r /\ blen r = blen other.

Lemma overlayLoop_fills (ops : audioop.Package) (vol : volume.Package)
    (config : OverlayConfig) (w : Z) (rSegData : list byte) :
  mixes ops vol config w ->
  forall (fuel : nat) (i pos : Z) (otherSegData dest : list byte),
    i < 0 -> - 2 ^ 63 < i - Z.of_nat fuel ->
    0 <= pos <= blen rSegData -> blen rSegData - pos < Z.of_nat fuel ->
    0 < blen otherSegData \/ blen rSegData - pos = 0 ->
    (w | blen otherSegData) -> (w | blen rSegData - pos) ->
    exists dest',
      overlayLoop ops vol fuel config w rSegData i pos otherSegData dest
      = Ret (dest', blen rSegData)
      /\ blen dest' = blen dest + (blen rSegData - pos).
Proof.
  intros Hmix. induction fuel as [ | fuel IH];
    intros i pos od dest Hi Hw Hpos Hfuel Hne Hdo Hdr; [ lia | ].
  pose proof (blen_nonneg od) as Hod.
  cbn [overlayLoop].
  replace (i =? 0) with false by (symmetry; apply Z.eqb_neq; lia).
  replace (blen rSegData - pos <? 0) with false by (symmetry; apply Z.ltb_ge; lia).
  destruct (blen rSegData - pos <=? blen od) eqn:El.
  - apply Z.leb_le in El.
    rewrite slice_ok by lia. cbn [bind].
    assert (Hl : blen (sub od 0 (blen rSegData - pos)) = blen rSegData - pos).
    { rewrite length_sub by lia. lia. }
    rewrite Hl. rewrite slice_ok by lia. cbn [bind].
    destruct (Hmix (sub rSegData pos (pos + (blen rSegData - pos)))
                (sub od 0 (blen rSegData - pos))) as [r [Hr Hrl]].
    { rewrite Hl, length_sub by lia. lia. }
    { rewrite Hl. exact Hdr. }
    rewrite Hr. cbn [bind]. rewrite andb_false_r.
    change (wrap64 (1 - 1)) with 0. rewrite overlayLoop_done.
    exists (dest ++ r). split; [ f_equal; f_equal; lia | ].
    rewrite blen_app, Hrl, Hl. reflexivity.
  - apply Z.leb_gt in El. cbn [bind].
    rewrite slice_ok by lia. cbn [bind].
    destruct (Hmix (sub rSegData pos (pos + blen od)) od) as [r [Hr Hrl]].
    { rewrite length_sub by lia. lia. }
    { exact Hdo. }
    rewrite Hr. cbn [bind].
    replace (blen od =? 0) with false by (symmetry; apply Z.eqb_neq; lia).
    cbn [andb]. rewrite wrap64_small by lia.
    destruct (IH (i - 1) (pos + blen od) od (dest ++ r)) as [dest' [Hd Hdl]];
      try lia; try assumption.
    { replace (blen rSegData - (pos + blen od)) with (blen rSegData - pos - blen od) by lia.
      apply Z.divide_sub_r; assumption. }
    exists dest'. split; [ exact Hd | ].
    rewrite Hdl, blen_app, Hrl. lia.
Qed.

(** Overlay with LoopToEnd fills the tail and adds nothing to it.
    When the two operands synchronize, the base can be sliced at the
    position into a head and a tail, the overlay is not empty (or the tail
    is), and every mixing pass succeeds on whole samples, Overlay returns
    a segment in the format of the synchronized base whose data has the
    length of the head plus the length of the tail: the overlay is
    repeated over the tail and cut off at its end. *)
Lemma Overlay_LoopToEnd_fills (ops : audioop.Package) (vol : volume.Package)
    (seg other : AudioSegment) (config : OverlayConfig)
    (segment other' head tail : AudioSegment) :
  LoopToEnd config = true ->
  sync ops [seg; other] = Ret [segment; other'] ->
  Slice ops segment 0 (Position config) = Ret head ->
  Slice ops segment (Position config) (Duration segment) = Ret tail ->
  sampleWidth segment <> 3 ->
  mixes ops vol config (sampleWidth segment) ->
  (sampleWidth segment | blen (data other')) ->
  (sampleWidth segment | blen (data tail)) ->
  data other' <> [] \/ data tail = [] ->
  blen (data tail) < 2 ^ 62 ->
  exists d,
    Overlay ops vol seg (Some other) config
    = Ret {| sampleWidth := sampleWidth segment; frameRate := frameRate segment;
             frameWidth := frameWidth segment; channels := channels segment; data := d |}
    /\ blen d = blen (data head) + blen (data tail).
Proof.
  intros Hloop Hsync Hhead Htail H3 Hmix Hdo Hdt Hne Hbig.
  pose proof (blen_nonneg (data tail)) as Ht0.
  unfold Overlay. rewrite Hloop, Hsync. cbn [bind]. rewrite Hhead. cbn [bind].
  rewrite Htail. cbn [bind].
  change (0 <? -1) with false. cbv iota.
  assert (A1 : 0 < blen (data other') \/ blen (data tail) - 0 = 0).
  { destruct Hne as [Hne | Hne].
    - left. unfold blen. destruct (data other'); [ congruence | simpl; lia ].
    - right. rewrite Hne. reflexivity. }
  assert (A2 : (sampleWidth segment | blen (data tail) - 0))
    by (rewrite Z.sub_0_r; exact Hdt).
  destruct (overlayLoop_fills ops vol config (sampleWidth segment) (data tail) Hmix
              (Z.to_nat (blen (data tail) + 1)) (-1) 0 (data other') (data head))
    as [dest' [Hd Hdl]]; try lia; try assumption.
  rewrite Hd. cbn [bind fst snd].
  rewrite slice_ok by lia. cbn [bind].
  rewrite derive_plain by exact H3. cbn [fold_left].
  eexists. split; [ reflexivity | ].
  rewrite blen_app, Hdl, length_sub by lia. lia.
Qed.

(** The arithmetic of [audioop_model] keeps lengths. *)

Lemma le_bytes_length (n : nat) : forall v, length (audioop_model.le_bytes n v) = n.
Proof.
  induction n as [ | n IH]; intros v; [ reflexivity | ].
  cbn [audioop_model.le_bytes length]. rewrite IH. reflexivity.
Qed.

Lemma putSamples_blen (w : Z) (vs : list Z) :
  0 <= w -> blen (audioop_model.putSamples w vs) = w * Z.of_nat (length vs).
Proof.
  intros Hw. unfold audioop_model.putSamples, blen.
  induction vs as [ | v vs IH]; [ simpl; lia | ].
  cbn [flat_map]. rewrite length_app, le_bytes_length, Nat2Z.inj_add, IH.
  cbn [length]. lia.
Qed.

Lemma getSamples_length (n w : nat) : forall bs, length (audioop_model.getSamples n w bs) = n.
Proof.
  induction n as [ | n IH]; intros bs; [ reflexivity | ].
  cbn [audioop_model.getSamples length]. rewrite IH. reflexivity.
Qed.

Lemma samples_length (bs : list byte) (w : Z) :
  length (audioop_model.samples bs w) = Z.to_nat (blen bs / w).
Proof. unfold audioop_model.samples. apply getSamples_length. Qed.

Lemma checkParameters_ok (len w : Z) :
  w = 1 \/ w = 2 \/ w = 4 -> (w | len) -> audioop_model.checkParameters len w = None.
Proof.
  intros Hw Hd. unfold audioop_model.checkParameters.
  replace ((w =? 1) || (w =? 2) || (w =? 4)) with true
    by (destruct Hw as [-> | [-> | ->]]; reflexivity).
  cbn [negb].
  assert (Hm : len mod w = 0) by (destruct Hd as [q ->]; apply Z_mod_mult).
  rewrite Hm. reflexivity.
Qed.

Lemma model_whole_samples (bs : list byte) (w : Z) :
  w = 1 \/ w = 2 \/ w = 4 -> (w | blen bs) ->
  w * Z.of_nat (length (audioop_model.samples bs w)) = blen bs.
Proof.
  intros Hw [q Hq]. rewrite samples_length, Hq.
  pose proof (blen_nonneg bs) as H0.
  rewrite Z.div_mul by lia. rewrite Z2Nat.id by nia. lia.
Qed.

Lemma model_mixes (ratecv : list byte -> Z -> Z -> Z -> Z -> Z -> Z ->
                            audioop.result (list byte))
    (vol : volume.Package) (config : OverlayConfig) (w : Z) :
  w = 1 \/ w = 2 \/ w = 4 -> mixes (audioop_model.package ratecv) vol config w.
Proof.
  intros Hw base other Hl Hd.
  assert (Hw0 : 0 <= w) by lia.
  assert (Hadd : forall a : list byte,
            blen a = blen other ->
            exists r, arith (audioop_model.Add a other w) = Ret r /\ blen r = blen other).
  { intros a Ha. unfold audioop_model.Add. change (audioop_model.blen a) with (blen a).
    change (audioop_model.blen other) with (blen other).
    rewrite checkParameters_ok by (try rewrite Ha; assumption).
    rewrite Ha, Z.eqb_refl. cbn [negb]. unfold arith. cbn [fst snd].
    eexists. split; [ reflexivity | ].
    rewrite putSamples_blen by exact Hw0.
    rewrite length_map, length_combine.
    assert (Ea : w * Z.of_nat (length (audioop_model.samples a w)) = blen other)
      by (rewrite model_whole_samples; [ exact Ha | exact Hw | rewrite Ha; exact Hd ]).
    assert (Eo : w * Z.of_nat (length (audioop_model.samples other w)) = blen other)
      by (apply model_whole_samples; assumption).
    assert (length (audioop_model.samples a w) = length (audioop_model.samples other w))
      by nia.
    rewrite Nat.min_l by lia. exact Ea. }
  unfold mix. cbn [audioop.Mul audioop.Add audioop_model.package].
  destruct (F64.ltb F64.zero (GainDuringOverlay config)); [ | apply Hadd; exact Hl ].
  unfold audioop_model.Mul, audioop_model.checked.
  change (audioop_model.blen base) with (blen base).
  rewrite checkParameters_ok by (try rewrite Hl; assumption).
  unfold arith at 1. cbn [fst snd bind].
  apply Hadd. rewrite putSamples_blen by exact Hw0.
  rewrite length_map. rewrite model_whole_samples; [ exact Hl | exact Hw | ].
  rewrite Hl. exact Hd.
Qed.

(** 500 ms of silence and 100 ms of a constant tone, 16-bit mono at
    1000 Hz. *)
Definition base500 : AudioSegment := mono16 1000 (repeat x00 1000).
Definition tone100 : AudioSegment := mono16 1000 (concat (repeat [x10; x00] 100)).

Lemma mix_gain (ops : audioop.Package) (vol : volume.Package) (c1 c2 : OverlayConfig)
    (w : Z) (base other : list byte) :
  GainDuringOverlay c1 = GainDuringOverlay c2 ->
  mix ops vol c1 w base other = mix ops vol c2 w base other.
Proof. intros H. unfold mix. rewrite H. reflexivity. Qed.

Lemma overlayLoop_gain (ops : audioop.Package) (vol : volume.Package) (c1 c2 : OverlayConfig)
    (w : Z) (rSegData : list byte) :
  GainDuringOverlay c1 = GainDuringOverlay c2 ->
  forall (fuel : nat) (i pos : Z) (otherSegData dest : list byte),
    overlayLoop ops vol fuel c1 w rSegData i pos otherSegData dest
    = overlayLoop ops vol fuel c2 w rSegData i pos otherSegData dest.
Proof.
  intros H. induction fuel as [ | fuel IH]; intros i pos od dest; [ reflexivity | ].
  cbn [overlayLoop]. destruct (i =? 0); [ reflexivity | ].
  destruct (if _ <=? _ then _ else _) as [od' | | | ]; cbn [bind]; try reflexivity.
  destruct (slice rSegData pos _) as [base | | | ]; cbn [bind]; try reflexivity.
  rewrite (mix_gain ops vol c1 c2 w base od' H).
  destruct (mix ops vol c2 w base od') as [r | | | ]; cbn [bind]; try reflexivity.
  destruct (_ && _); [ reflexivity | apply IH ].
Qed.

(** A LoopCount of 0 is a LoopCount of 1: Overlay returns the same for
    the two configurations, whatever the operands, the position, the
    LoopToEnd flag and the gain. *)
Lemma Overlay_LoopCount_default (ops : audioop.Package) (vol : volume.Package)
    (seg : AudioSegment) (other : option AudioSegment) (position : Z) (loopToEnd : bool)
    (gain : Volume) :
  Overlay ops vol seg other
    {| Position := position; LoopToEnd := loopToEnd; LoopCount := 0;
       GainDuringOverlay := gain |}
  = Overlay ops vol seg other
      {| Position := position; LoopToEnd := loopToEnd; LoopCount := 1;
         GainDuringOverlay := gain |}.
Proof.
  unfold Overlay. destruct other as [other | ]; [ | reflexivity ].
  cbn [LoopCount LoopToEnd Position]. change (0 =? 0) with true. change (1 =? 0) with false.
  cbv iota.
  destruct (sync ops [seg; other]) as [synced | | | ]; cbn [bind]; try reflexivity.
  destruct synced as [ | segment [ | other' [ | x rest]]]; try reflexivity.
  destruct (Slice ops segment 0 position); cbn [bind]; try reflexivity.
  destruct (Slice ops segment position (Duration segment)); cbn [bind]; try reflexivity.
  rewrite (overlayLoop_gain ops vol _
             {| Position := position; LoopToEnd := loopToEnd; LoopCount := 1;
                GainDuringOverlay := gain |}); reflexivity.
Qed.

(** ** C6: Overlay with LoopToEnd, and the default LoopCount *)

(** Four 16-bit mono frames at 3000 Hz, 1.33 ms, which Duration rounds to
    1 ms: three frames; and one frame to lay over them. *)
Definition long3000 : AudioSegment :=
  mono16 3000 [x01; x00; x02; x00; x03; x00; x04; x00].

Definition one3000 : AudioSegment := mono16 3000 [x10; x00].

(** C6, counterexample: the operands are in one format already, the base
    holds 8 bytes, and Overlay with LoopToEnd returns 6: the tail it mixes
    into is Slice(0, Duration()), which ends at the last whole
    millisecond. *)
Lemma Overlay_LoopToEnd_counterexample :
  sync modelOps [long3000; one3000] = Ret [long3000; one3000]
  /\ blen (data long3000) = 8
  /\ Overlay modelOps (constVolume F64.one) long3000 (Some one3000)
       {| Position := 0; LoopToEnd := true; LoopCount := 0; GainDuringOverlay := F64.zero |}
     = Ret (mono16 3000 [x11; x00; x12; x00; x13; x00]).
Proof. split; [ | split ]; vm_compute; reflexivity. Qed.

(** C6, as amended: when the two operands synchronize, the synchronized
    base can be sliced at the position into a head, Slice(0, Position),
    and a tail, Slice(Position, Duration()), the overlay is not empty (or
    the tail is) and every mixing pass succeeds on whole samples, Overlay
    with LoopToEnd returns a segment in the format of the synchronized
    base whose data is as long as the head and the tail together: the
    overlay is repeated over the tail and cut off at its end, and the
    result is never longer than the data of the synchronized base (it is
    shorter where Duration() rounds the frame count down).  And a
    LoopCount of 0 is a LoopCount of 1: Overlay returns the same for the
    two, whatever the operands and the rest of the configuration. *)
Theorem Overlay_LoopToEnd_and_LoopCount (ops : audioop.Package) (vol : volume.Package)
    (seg : AudioSegment) :
  (forall (other : AudioSegment) (config : OverlayConfig)
          (segment other' head tail : AudioSegment),
      LoopToEnd config = true ->
      nilOnError ops ->
      sync ops [seg; other] = Ret [segment; other'] ->
      Slice ops segment 0 (Position config) = Ret head ->
      Slice ops segment (Position config) (Duration segment) = Ret tail ->
      sampleWidth segment <> 3 ->
      mixes ops vol config (sampleWidth segment) ->
      (sampleWidth segment | blen (data other')) ->
      (sampleWidth segment | blen (data tail)) ->
      data other' <> [] \/ data tail = [] ->
      blen (data tail) < 2 ^ 62 ->
      exists d,
        Overlay ops vol seg (Some other) config
        = Ret {| sampleWidth := sampleWidth segment; frameRate := frameRate segment;
                 frameWidth := frameWidth segment; channels := channels segment;
                 data := d |}
        /\ blen d = blen (data head) + blen (data tail)
        /\ blen d <= blen (data segment))
  /\ (forall (other : option AudioSegment) (position : Z) (loopToEnd : bool) (gain : Volume),
        Overlay ops vol seg other
          {| Position := position; LoopToEnd := loopToEnd; LoopCount := 0;
             GainDuringOverlay := gain |}
        = Overlay ops vol seg other
            {| Position := position; LoopToEnd := loopToEnd; LoopCount := 1;
               GainDuringOverlay := gain |}).
Proof.
  split.
  - intros other config segment other' head tail Hl Hnil Hs Hh Ht H3 Hm Ho Hd Hne Hb.
    destruct (Overlay_LoopToEnd_fills ops vol seg other config segment other' head tail
                Hl Hs Hh Ht H3 Hm Ho Hd Hne Hb) as [d [HO Hlen]].
    exists d. split; [ exact HO | ]. split; [ exact Hlen | ].
    destruct (Slice_Ret ops segment 0 (Position config) head Hnil H3 Hh) as [_ [I1 E1]].
    destruct (Slice_Ret ops segment (Position config) (Duration segment) tail Hnil H3 Ht)
      as [_ [I2 E2]].
    assert (Hend : forall ms, endIndexOf segment ms <= blen (data segment)
                              /\ endIndexOf segment ms <= startIndexOf segment ms).
    { intros ms. unfold endIndexOf.
      destruct (blen (data segment) <? startIndexOf segment ms) eqn:E;
        [ apply Z.ltb_lt in E | apply Z.ltb_ge in E ]; lia. }
    pose proof (Hend (Position config)) as [P1 P2].
    pose proof (Hend (Duration segment)) as [D1 D2].
    rewrite Hlen. subst head tail. cbn [data].
    rewrite !length_sub by lia. lia.
  - intros other position loopToEnd gain. apply Overlay_LoopCount_default.
Qed.

(** 100 ms of tone over 500 ms of silence, from position 0: the result is
    500 ms long. *)
Lemma Overlay_LoopToEnd_and_LoopCount_witness :
  exists d,
    Overlay modelOps (constVolume F64.one) base500 (Some tone100)
      {| Position := 0; LoopToEnd := true; LoopCount := 0; GainDuringOverlay := F64.zero |}
    = Ret (mono16 1000 d)
    /\ blen d = 1000
    /\ Duration (mono16 1000 d) = 500.
Proof.
  destruct (proj1 (Overlay_LoopToEnd_and_LoopCount modelOps (constVolume F64.one) base500)
              tone100
              {| Position := 0; LoopToEnd := true; LoopCount := 0;
                 GainDuringOverlay := F64.zero |}
              base500 tone100 (mono16 1000 []) base500) as [d [HO [Hlen _]]].
  - reflexivity.
  - exact nilOnError_model.
  - vm_compute. reflexivity.
  - vm_compute. reflexivity.
  - vm_compute. reflexivity.
  - discriminate.
  - apply model_mixes. right. left. reflexivity.
  - exists 100. reflexivity.
  - exists 500. reflexivity.
  - left. discriminate.
  - vm_compute. reflexivity.
  - exists d. split; [ exact HO | ]. split; [ exact Hlen | ].
    unfold Duration, FrameCount, mono16. cbn [frameRate frameWidth data].
    rewrite Hlen. vm_compute. reflexivity.
Defined.

(** ** Repeat *)

Lemma copies_concat (b : list byte) (n : nat) : copies b n = concat (repeat b n).
Proof. induction n as [ | n IH]; cbn [copies repeat concat]; [ | rewrite IH ]; reflexivity. Qed.

Lemma copies_blen (b : list byte) (n : nat) : blen (copies b n) = Z.of_nat n * blen b.
Proof.
  induction n as [ | n IH]; cbn [copies]; [ reflexivity | ].
  rewrite blen_app, IH. lia.
Qed.

(** X18: Repeat on a segment whose sample width is not 3.  A negative count
    panics (bytes.Repeat refuses it); a count of 0 gives a segment of the
    same format with no data; a positive count, when the result fits an
    int, gives a segment of the same format whose data is that many copies
    of the data, so its length is the count times the length. *)
Theorem Repeat_copies (seg : AudioSegment) (count : Z) :
  sampleWidth seg <> 3 ->
  (count < 0 -> Repeat seg count = Panic NegativeRepeatCount)
  /\ (0 <= count -> blen (data seg) * count < 2 ^ 63 ->
      Repeat seg count
      = Ret {| sampleWidth := sampleWidth seg; frameRate := frameRate seg;
               frameWidth := frameWidth seg; channels := channels seg;
               data := concat (repeat (data seg) (Z.to_nat count)) |}
      /\ blen (concat (repeat (data seg) (Z.to_nat count))) = count * blen (data seg))
  /\ (0 < count -> 2 ^ 63 <= blen (data seg) * count ->
      Repeat seg count = Panic RepeatOverflow).
Proof.
  intros H3. unfold Repeat, bytes_Repeat. split; [ | split ].
  - intros Hc.
    replace (count =? 0) with false by (symmetry; apply Z.eqb_neq; lia).
    replace (count <? 0) with true by (symmetry; apply Z.ltb_lt; lia).
    reflexivity.
  - intros Hc Hb. rewrite <- copies_concat. split.
    + destruct (count =? 0) eqn:E0.
      * apply Z.eqb_eq in E0. subst count. cbn [bind]. rewrite derive_plain by exact H3.
        reflexivity.
      * replace (count <? 0) with false by (symmetry; apply Z.ltb_ge; lia).
        replace (2 ^ 63 <=? blen (data seg) * count) with false
          by (symmetry; apply Z.leb_gt; lia).
        cbn [bind]. rewrite derive_plain by exact H3. reflexivity.
    + rewrite copies_blen, Z2Nat.id by lia. reflexivity.
  - intros Hc Hb.
    replace (count =? 0) with false by (symmetry; apply Z.eqb_neq; lia).
    replace (count <? 0) with false by (symmetry; apply Z.ltb_ge; lia).
    replace (2 ^ 63 <=? blen (data seg) * count) with true
      by (symmetry; apply Z.leb_le; lia).
    reflexivity.
Qed.

Lemma Repeat_copies_witness :
  Repeat (mono16 1000 [x01; x00]) (-1) = Panic NegativeRepeatCount
  /\ Repeat (mono16 1000 [x01; x00]) 3
     = Ret (mono16 1000 [x01; x00; x01; x00; x01; x00]).
Proof.
  pose proof (Repeat_copies (mono16 1000 [x01; x00]) (-1) ltac:(discriminate)) as [N _].
  pose proof (Repeat_copies (mono16 1000 [x01; x00]) 3 ltac:(discriminate)) as [_ [P _]].
  split.
  - apply N. lia.
  - apply P; [ lia | vm_compute; reflexivity ].
Defined.

(** ** SplitOnSilence *)

(** X14: SplitOnSilence reports an error exactly for audio whose RMS is 0,
    and then returns no chunk and no timing beside it: with an RMS of 0 it
    returns the empty-file error with two empty lists, and whenever it
    returns an error at all, the RMS is 0, the error is that one and both
    lists are empty. *)
Theorem SplitOnSilence_error_iff_empty (ops : audioop.Package) (vol : volume.Package)
    (Len : AudioSegment -> Z) (seg : AudioSegment) (minSilenceLen : Z)
    (silenceThresh : Volume) (keepSilence seekStep : Z) :
  (F64.eqb (RMS ops seg) F64.zero = true ->
   SplitOnSilence ops vol Len seg minSilenceLen silenceThresh keepSilence seekStep
   = Ret ([], [], Some (InvalidFile "Empty file. Check audio")))
  /\ (forall chunks timings e,
        SplitOnSilence ops vol Len seg minSilenceLen silenceThresh keepSilence seekStep
        = Ret (chunks, timings, Some e) ->
        F64.eqb (RMS ops seg) F64.zero = true
        /\ chunks = [] /\ timings = [] /\ e = InvalidFile "Empty file. Check audio").
Proof.
  split.
  - intros H. unfold SplitOnSilence, checkEmptyAudio. rewrite H. reflexivity.
  - intros chunks timings e H. unfold SplitOnSilence, checkEmptyAudio in H.
    destruct (F64.eqb (RMS ops seg) F64.zero); [ inversion H; auto | exfalso ].
    destruct (derive seg (data seg) []); cbn [bind] in H; try discriminate.
    destruct (matchTargetAmp ops vol seg (F64.of_Z (-20))) as [[norm | ] | | | ];
      cbn [bind] in H; try discriminate.
    destruct (DetectNonsilent ops vol norm minSilenceLen silenceThresh seekStep)
      as [ranges | | | ]; cbn [bind] in H; try discriminate.
    destruct (Z.of_nat (length ranges) =? 1); [ discriminate | ].
    destruct (chunksLoop ops seg keepSilence ranges 0 ([], [])) as [[acc startMin] | | | ];
      cbn [bind] in H; try discriminate.
    destruct (nth_error ranges (length ranges - 1)); [ | discriminate ].
    destruct (keepChunk ops seg _ _ acc); cbn [bind] in H; discriminate.
Qed.

Lemma SplitOnSilence_error_iff_empty_witness :
  SplitOnSilence modelOps (constVolume F64.one) (fun _ => 0) (mono16 1000 [x00; x00; x00; x00])
    1 F64.zero 0 1
  = Ret ([], [], Some (InvalidFile "Empty file. Check audio")).
Proof.
  apply (SplitOnSilence_error_iff_empty modelOps (constVolume F64.one) (fun _ => 0)
           (mono16 1000 [x00; x00; x00; x00]) 1 F64.zero 0 1).
  vm_compute. reflexivity.
Defined.

(** C9 (code bug): SplitOnSilence has no case for audio that is silent throughout.
    When the RMS is not 0 and DetectNonsilent finds no range in the
    normalized audio, it reads [notSilenceRanges[len(notSilenceRanges)-1]]
    of an empty list and panics with an index out of range. *)
Theorem SplitOnSilence_all_silent_panics (ops : audioop.Package) (vol : volume.Package)
    (Len : AudioSegment -> Z) (seg normAudio : AudioSegment) (minSilenceLen : Z)
    (silenceThresh : Volume) (keepSilence seekStep : Z) :
  F64.eqb (RMS ops seg) F64.zero = false ->
  sampleWidth seg <> 3 ->
  matchTargetAmp ops vol seg (F64.of_Z (-20)) = Ret (Some normAudio) ->
  DetectNonsilent ops vol normAudio minSilenceLen silenceThresh seekStep = Ret [] ->
  SplitOnSilence ops vol Len seg minSilenceLen silenceThresh keepSilence seekStep
  = Panic IndexOutOfRange.
Proof.
  intros Hr H3 Hn Hd. unfold SplitOnSilence, checkEmptyAudio.
  rewrite Hr, derive_plain by exact H3. cbn [bind].
  rewrite Hn. cbn [bind]. rewrite Hd. reflexivity.
Qed.

(** Two frames of amplitude 1, 16-bit mono at 1000 Hz. *)
Definition faint : AudioSegment := mono16 1000 [x01; x00; x01; x00].

Lemma SplitOnSilence_all_silent_panics_witness :
  SplitOnSilence modelOps (constVolume F64.one) (fun _ => 0) faint 1 F64.zero 0 1
  = Panic IndexOutOfRange.
Proof.
  apply (SplitOnSilence_all_silent_panics modelOps (constVolume F64.one) (fun _ => 0)
           faint faint 1 F64.zero 0 1).
  - vm_compute. reflexivity.
  - discriminate.
  - vm_compute. reflexivity.
  - vm_compute. reflexivity.
Defined.

(** X15: when DetectNonsilent finds exactly one range in the normalized
    audio, SplitOnSilence returns the original segment whole as its only
    chunk, with the timing [0, Len], whatever the bounds of that range
    and whatever keepSilence is. *)
Theorem SplitOnSilence_single_range (ops : audioop.Package) (vol : volume.Package)
    (Len : AudioSegment -> Z) (seg normAudio : AudioSegment) (minSilenceLen : Z)
    (silenceThresh : Volume) (keepSilence seekStep : Z) (range : Z * Z) :
  F64.eqb (RMS ops seg) F64.zero = false ->
  sampleWidth seg <> 3 ->
  matchTargetAmp ops vol seg (F64.of_Z (-20)) = Ret (Some normAudio) ->
  DetectNonsilent ops vol normAudio minSilenceLen silenceThresh seekStep = Ret [range] ->
  SplitOnSilence ops vol Len seg minSilenceLen silenceThresh keepSilence seekStep
  = Ret ([seg], [(F32.of_Z 0, F32.of_Z (Len seg))], None).
Proof.
  intros Hr H3 Hn Hd. unfold SplitOnSilence, checkEmptyAudio.
  rewrite Hr, derive_plain by exact H3. cbn [bind].
  rewrite Hn. cbn [bind]. rewrite Hd. reflexivity.
Qed.

(** Two loud frames and two silent ones, 16-bit mono at 1000 Hz. *)
Definition loudThenQuiet : AudioSegment :=
  mono16 1000 [xff; x7f; xff; x7f; x00; x00; x00; x00].

(** A volume package for this example: the ratio is 1 from -30 dB up and
    1/4 below. *)
Definition stepVolume : volume.Package :=
  {| volume.ToRatio := fun v _ =>
       if F64.ltb v (F64.of_Z (-30)) then F64.div (F64.of_Z 1) (F64.of_Z 4) else F64.one;
     volume.NewVolumeFromRatio := fun _ _ _ => F64.zero |}.

Lemma SplitOnSilence_single_range_witness :
  SplitOnSilence modelOps stepVolume (fun s => Duration s) loudThenQuiet
    1 (F64.of_Z (-40)) 0 1
  = Ret ([loudThenQuiet], [(F32.of_Z 0, F32.of_Z (Duration loudThenQuiet))], None).
Proof.
  apply (SplitOnSilence_single_range modelOps stepVolume (fun s => Duration s)
           loudThenQuiet loudThenQuiet 1 (F64.of_Z (-40)) 0 1 (0, 2)).
  - vm_compute. reflexivity.
  - discriminate.
  - vm_compute. reflexivity.
  - vm_compute. reflexivity.
Defined.

(** ** detectLeadingSilence *)

(** Whether the chunk starting at [t] is below the threshold. *)
Definition chunkQuiet (ops : audioop.Package) (vol : volume.Package) (sound : AudioSegment)
    (silenceThreshold : Volume) (chunkSize t : Z) : bool :=
  match Slice ops sound t (t + chunkSize) with
  | Ret temp1 => F64.ltb (DBFS ops vol temp1) silenceThreshold
  | _ => false
  end.

Lemma leadingLoop_S (ops : audioop.Package) (vol : volume.Package) (fuel : nat)
    (sound : AudioSegment) (silenceThreshold : Volume) (chunkSize trimMS : Z) :
  leadingLoop ops vol (S fuel) sound silenceThreshold chunkSize trimMS
  = if trimMS <? Duration sound then
      match Slice ops sound trimMS (wrap64 (trimMS + chunkSize)) with
      | Ret temp1 =>
          if F64.ltb (DBFS ops vol temp1) silenceThreshold then
            leadingLoop ops vol fuel sound silenceThreshold chunkSize
              (wrap64 (trimMS + chunkSize))
          else Ret trimMS
      | Err _ => Panic NilDereference
      | Panic p => Panic p
      | Diverges => Diverges
      end
    else Ret trimMS.
Proof. reflexivity. Qed.

Lemma leadingLoop_first_loud (ops : audioop.Package) (vol : volume.Package)
    (sound : AudioSegment) (silenceThreshold : Volume) (chunkSize : Z) :
  0 < chunkSize -> Duration sound + chunkSize < 2 ^ 63 ->
  (forall k, 0 <= k -> k * chunkSize < Duration sound ->
             isRet (Slice ops sound (k * chunkSize) (k * chunkSize + chunkSize)) = true) ->
  forall (fuel : nat) (n : Z),
    0 <= n -> Duration sound - n * chunkSize <= Z.of_nat fuel ->
    exists m,
      n <= m
      /\ leadingLoop ops vol (S fuel) sound silenceThreshold chunkSize (n * chunkSize)
         = Ret (m * chunkSize)
      /\ (forall k, n <= k < m ->
                    k * chunkSize < Duration sound
                    /\ chunkQuiet ops vol sound silenceThreshold chunkSize (k * chunkSize)
                       = true)
      /\ (m * chunkSize < Duration sound ->
          chunkQuiet ops vol sound silenceThreshold chunkSize (m * chunkSize) = false).
Proof.
  intros Hc Hb Hok. induction fuel as [ | fuel IH]; intros n Hn Hf.
  - exists n. rewrite leadingLoop_S.
    replace (n * chunkSize <? Duration sound) with false by (symmetry; apply Z.ltb_ge; lia).
    split; [ lia | ]. split; [ reflexivity | ]. split; intros; lia.
  - rewrite leadingLoop_S.
    destruct (n * chunkSize <? Duration sound) eqn:E.
    + apply Z.ltb_lt in E.
      assert (Hw : wrap64 (n * chunkSize + chunkSize) = n * chunkSize + chunkSize)
        by (apply wrap64_small; nia).
      rewrite Hw. pose proof (Hok n Hn E) as Hs.
      replace (leadingLoop ops vol (S fuel) sound silenceThreshold chunkSize
                 (n * chunkSize + chunkSize))
        with (leadingLoop ops vol (S fuel) sound silenceThreshold chunkSize
                ((n + 1) * chunkSize)) by (f_equal; lia).
      destruct (Slice ops sound (n * chunkSize) (n * chunkSize + chunkSize))
        as [temp1 | | | ] eqn:Es; try discriminate.
      destruct (F64.ltb (DBFS ops vol temp1) silenceThreshold) eqn:Eq.
      * destruct (IH (n + 1)) as [m [Hm [Hr [Hq Hl]]]]; [ lia | nia | ].
        exists m. split; [ lia | ]. split; [ exact Hr | ]. split; [ | exact Hl ].
        intros k Hk. destruct (Z.eq_dec k n) as [-> | Hne].
        -- split; [ exact E | ]. unfold chunkQuiet. rewrite Es. exact Eq.
        -- apply Hq. lia.
      * exists n. split; [ lia | ]. split; [ reflexivity | ].
        split; [ intros; lia | ]. intros _. unfold chunkQuiet. rewrite Es. exact Eq.
    + apply Z.ltb_ge in E. exists n. split; [ lia | ]. split; [ reflexivity | ].
      split; intros; lia.
Qed.

(** X19: detectLeadingSilence returns the start of the first chunk that is
    not below the threshold.  For a positive chunk size, positions within
    int64 and chunks of the audio that Slice can cut, it returns (and does
    not loop on) a multiple [n * chunkSize] of the chunk size such that
    every chunk before it starts inside the audio and has a DBFS below the
    threshold, and the chunk at it, when it starts inside the audio, has
    not. *)
Theorem detectLeadingSilence_first_loud (ops : audioop.Package) (vol : volume.Package)
    (sound : AudioSegment) (silenceThreshold : Volume) (chunkSize : Z) :
  0 < chunkSize -> Duration sound + chunkSize < 2 ^ 63 ->
  (forall k, 0 <= k -> k * chunkSize < Duration sound ->
             isRet (Slice ops sound (k * chunkSize) (k * chunkSize + chunkSize)) = true) ->
  exists n,
    0 <= n
    /\ detectLeadingSilence ops vol sound silenceThreshold chunkSize = Ret (n * chunkSize)
    /\ (forall k, 0 <= k < n ->
                  k * chunkSize < Duration sound
                  /\ chunkQuiet ops vol sound silenceThreshold chunkSize (k * chunkSize)
                     = true)
    /\ (n * chunkSize < Duration sound ->
        chunkQuiet ops vol sound silenceThreshold chunkSize (n * chunkSize) = false).
Proof.
  intros Hc Hb Hok. unfold detectLeadingSilence.
  change 0 with (0 * chunkSize) at 2.
  apply leadingLoop_first_loud; try assumption; lia.
Qed.

(** A volume package for this example: a volume is its ratio. *)
Definition ratioVolume : volume.Package :=
  {| volume.ToRatio := fun v _ => v; volume.NewVolumeFromRatio := fun r _ _ => r |}.

Lemma detectLeadingSilence_first_loud_witness :
  exists n,
    0 <= n
    /\ detectLeadingSilence modelOps ratioVolume quietThenLoud half 1 = Ret (n * 1)
    /\ (forall k, 0 <= k < n ->
                  k * 1 < Duration quietThenLoud
                  /\ chunkQuiet modelOps ratioVolume quietThenLoud half 1 (k * 1) = true)
    /\ (n * 1 < Duration quietThenLoud ->
        chunkQuiet modelOps ratioVolume quietThenLoud half 1 (n * 1) = false).
Proof.
  apply (detectLeadingSilence_first_loud modelOps ratioVolume quietThenLoud half 1).
  - lia.
  - vm_compute. reflexivity.
  - intros k Hk Hd. change (Duration quietThenLoud) with 4 in Hd.
    assert (C : k = 0 \/ k = 1 \/ k = 2 \/ k = 3) by lia.
    destruct C as [-> | [-> | [-> | ->]]]; vm_compute; reflexivity.
Defined.

(** ** The concurrent detector *)

(** [results] with the slot [i] overwritten, when there is one. *)
Fixpoint upd (results : list silenceResult) (i : nat) (r : silenceResult)
  : list silenceResult :=
  match results, i with
  | [], _ => []
  | _ :: rest, O => r :: rest
  | x :: rest, S i' => x :: upd rest i' r
  end.

Lemma store_upd (results : list silenceResult) :
  forall (i : nat) (r : silenceResult),
    (i < length results)%nat -> store results i r = Some (upd results i r).
Proof.
  induction results as [ | x rest IH]; intros i r Hi; [ simpl in Hi; lia | ].
  destruct i as [ | i]; [ reflexivity | ].
  cbn [store upd]. rewrite IH by (simpl in Hi; lia). reflexivity.
Qed.

Lemma upd_length (results : list silenceResult) :
  forall (i : nat) (r : silenceResult), length (upd results i r) = length results.
Proof.
  induction results as [ | x rest IH]; intros i r; [ reflexivity | ].
  destruct i as [ | i]; cbn [upd length]; [ reflexivity | rewrite IH; reflexivity ].
Qed.

Lemma upd_comm (results : list silenceResult) :
  forall (i j : nat) (a b : silenceResult),
    i <> j -> upd (upd results i a) j b = upd (upd results j b) i a.
Proof.
  induction results as [ | x rest IH]; intros i j a b Hij; [ reflexivity | ].
  destruct i as [ | i], j as [ | j]; cbn [upd]; try reflexivity; [ congruence | ].
  rewrite IH by congruence. reflexivity.
Qed.

(** The slots after every message of [received] has been stored. *)
Definition stored (received : list silenceResult) (results : list silenceResult)
  : list silenceResult :=
  fold_left (fun acc m => upd acc (Z.to_nat (index m)) m) received results.

Definition inRange (n : nat) (m : silenceResult) : Prop := 0 <= index m < Z.of_nat n.

Lemma collect_stored (received : list silenceResult) :
  forall results,
    Forall (inRange (length results)) received ->
    collect received results = Ret (stored received results).
Proof.
  induction received as [ | m rest IH]; intros results H; [ reflexivity | ].
  inversion H as [ | ? ? Hm Hrest]; subst. unfold inRange in Hm.
  cbn [collect]. replace (index m <? 0) with false by (symmetry; apply Z.ltb_ge; lia).
  rewrite store_upd by lia.
  unfold stored. cbn [fold_left]. apply IH.
  rewrite upd_length. exact Hrest.
Qed.

Lemma stored_Permutation (received received' : list silenceResult) :
  Permutation received received' ->
  NoDup (map index received) -> Forall (fun m => 0 <= index m) received ->
  forall results, stored received results = stored received' results.
Proof.
  induction 1 as [ | x l l' Hp IH | x y l | l l' l'' Hp1 IH1 Hp2 IH2];
    intros Hnd Hpos results.
  - reflexivity.
  - unfold stored. cbn [fold_left]. apply IH.
    + inversion Hnd; assumption.
    + inversion Hpos; assumption.
  - unfold stored. cbn [fold_left]. f_equal.
    inversion Hnd as [ | ? ? Hin _]; subst.
    inversion Hpos as [ | ? ? Hy Hpos']; subst. inversion Hpos' as [ | ? ? Hx _]; subst.
    apply upd_comm. intros E. apply Hin. left.
    apply Z2Nat.inj in E; [ congruence | lia | lia ].
  - rewrite IH1 by assumption. apply IH2.
    + eapply Permutation_NoDup; [ | exact Hnd ]. apply Permutation_map. exact Hp1.
    + eapply Permutation_Forall; [ exact Hp1 | exact Hpos ].
Qed.

(** Whether the window at [pos] is silent, computed on the raw data as the
    workers do. *)
Definition directSilent (ops : audioop.Package) (seg : AudioSegment) (minSilenceLen : Z)
    (silThresh : F64.t) (pos : Z) : bool :=
  match calculateRMSForSegmentOptimized ops seg pos (wrap64 (pos + minSilenceLen)) with
  | Ret rms => F64.leb rms silThresh
  | _ => false
  end.

(** The results for [positions], numbered from [i] on. *)
Fixpoint numbered (silent : Z -> bool) (i : Z) (positions : list Z) : list silenceResult :=
  match positions with
  | [] => []
  | pos :: rest =>
      {| index := i; position := pos; isSilent := silent pos |}
        :: numbered silent (i + 1) rest
  end.

Lemma numbered_nil_index (silent : Z -> bool) (i j : Z) :
  numbered silent i [] = numbered silent j [].
Proof. reflexivity. Qed.

Lemma numbered_app (silent : Z -> bool) (a : list Z) :
  forall (i : Z) (b : list Z),
    numbered silent i (a ++ b)
    = numbered silent i a ++ numbered silent (i + Z.of_nat (length a)) b.
Proof.
  induction a as [ | x a IH]; intros i b.
  - cbn [app numbered length]. rewrite Z.add_0_r. reflexivity.
  - cbn [app numbered length]. rewrite IH. do 3 f_equal. lia.
Qed.

Lemma numbered_index (silent : Z -> bool) (l : list Z) :
  forall (i : Z) (m : silenceResult),
    In m (numbered silent i l) -> i <= index m < i + Z.of_nat (length l).
Proof.
  induction l as [ | x l IH]; intros i m H; [ contradiction | ].
  cbn [numbered] in H. destruct H as [<- | H].
  - cbn [index length]. lia.
  - apply IH in H. cbn [length]. lia.
Qed.

Lemma numbered_NoDup (silent : Z -> bool) (l : list Z) :
  forall i, NoDup (map index (numbered silent i l)).
Proof.
  induction l as [ | x l IH]; intros i; [ constructor | ].
  cbn [numbered map index]. constructor; [ | apply IH ].
  intros H. apply in_map_iff in H. destruct H as [m [Hm Hin]].
  apply numbered_index in Hin. lia.
Qed.

Lemma stored_numbered (silent : Z -> bool) (l : list Z) :
  forall (done rest : list silenceResult),
    length rest = length l ->
    stored (numbered silent (Z.of_nat (length done)) l) (done ++ rest)
    = done ++ numbered silent (Z.of_nat (length done)) l.
Proof.
  induction l as [ | x l IH]; intros done rest Hl.
  - destruct rest; [ reflexivity | discriminate ].
  - destruct rest as [ | r rest]; [ discriminate | ].
    cbn [numbered]. unfold stored. cbn [fold_left index].
    assert (Hu : forall (d : list silenceResult) y z t,
              upd (d ++ y :: t) (length d) z = d ++ z :: t).
    { induction d as [ | a d IHd]; intros y z t; [ reflexivity | ].
      cbn [app length upd]. rewrite IHd. reflexivity. }
    rewrite Nat2Z.id, Hu.
    set (m := {| index := Z.of_nat (length done); position := x; isSilent := silent x |}).
    replace (done ++ m :: rest) with ((done ++ [m]) ++ rest)
      by (rewrite <- app_assoc; reflexivity).
    replace (Z.of_nat (length done) + 1) with (Z.of_nat (length (done ++ [m])))
      by (rewrite length_app; cbn [length]; lia).
    fold (stored (numbered silent (Z.of_nat (length (done ++ [m]))) l) ((done ++ [m]) ++ rest)).
    rewrite IH by (cbn [length] in Hl; lia).
    rewrite <- app_assoc. reflexivity.
Qed.

Lemma numbered_silent (silent : Z -> bool) (l : list Z) :
  forall i, map position (filter isSilent (numbered silent i l)) = filter silent l.
Proof.
  induction l as [ | x l IH]; intros i; [ reflexivity | ].
  cbn [numbered filter isSilent]. destruct (silent x); cbn [map position]; rewrite IH;
    reflexivity.
Qed.

(** However the channel orders what the workers send, the collector ends
    with the results in the order of their positions. *)
Lemma collect_any_order (silent : Z -> bool) (l : list Z) (received : list silenceResult) :
  Permutation (numbered silent 0 l) received ->
  collect received
    (repeat {| index := 0; position := 0; isSilent := false |} (length l))
  = Ret (numbered silent 0 l).
Proof.
  intros Hp.
  assert (Hr : Forall (inRange (length l)) (numbered silent 0 l)).
  { apply Forall_forall. intros m Hm. apply numbered_index in Hm. unfold inRange. lia. }
  rewrite collect_stored.
  - rewrite <- (stored_Permutation _ _ Hp).
    + f_equal. apply (stored_numbered silent l []). apply repeat_length.
    + apply numbered_NoDup.
    + eapply Forall_impl; [ | exact Hr ]. unfold inRange. intros m Hm. lia.
  - rewrite repeat_length. eapply Permutation_Forall; [ exact Hp | exact Hr ].
Qed.

Lemma skipn_In {A : Type} (n : nat) (l : list A) (x : A) : In x (skipn n l) -> In x l.
Proof.
  intros H. rewrite <- (firstn_skipn n l). apply in_or_app. right. exact H.
Qed.

Lemma firstn_In {A : Type} (n : nat) (l : list A) (x : A) : In x (firstn n l) -> In x l.
Proof.
  intros H. rewrite <- (firstn_skipn n l). apply in_or_app. left. exact H.
Qed.

Lemma worker_numbered (ops : audioop.Package) (seg : AudioSegment) (minSilenceLen : Z)
    (silThresh : F64.t) (positions : list Z) :
  forall startIdx,
    Forall (fun pos => isRet (calculateRMSForSegmentOptimized ops seg pos
                                (wrap64 (pos + minSilenceLen))) = true) positions ->
    worker ops seg minSilenceLen silThresh positions startIdx
    = Ret (numbered (directSilent ops seg minSilenceLen silThresh) startIdx positions).
Proof.
  induction positions as [ | pos rest IH]; intros startIdx H; [ reflexivity | ].
  inversion H as [ | ? ? Hp Hr]; subst.
  cbn [worker numbered]. unfold directSilent at 1.
  destruct (calculateRMSForSegmentOptimized ops seg pos (wrap64 (pos + minSilenceLen)));
    try discriminate.
  cbn [bind]. rewrite (IH _ Hr). reflexivity.
Qed.

Lemma spawn_numbered (ops : audioop.Package) (seg : AudioSegment) (minSilenceLen : Z)
    (silThresh : F64.t) (sliceStarts : list Z) (chunkSize : Z) :
  0 < chunkSize ->
  Forall (fun pos => isRet (calculateRMSForSegmentOptimized ops seg pos
                              (wrap64 (pos + minSilenceLen))) = true) sliceStarts ->
  forall (n : nat) (i : Z),
    0 <= i ->
    exists sent,
      spawn ops seg minSilenceLen silThresh sliceStarts chunkSize n i = Ret sent
      /\ concat sent
         = numbered (directSilent ops seg minSilenceLen silThresh) (i * chunkSize)
             (firstn (n * Z.to_nat chunkSize) (skipn (Z.to_nat (i * chunkSize)) sliceStarts)).
Proof.
  intros Hc Hall. induction n as [ | n IH]; intros i Hi.
  - exists []. split; reflexivity.
  - cbn [spawn].
    set (start := i * chunkSize). set (l' := skipn (Z.to_nat start) sliceStarts).
    assert (Hs0 : 0 <= start) by (unfold start; nia).
    assert (Hl' : Z.of_nat (length l') = Z.max 0 (blen_Z sliceStarts - start)).
    { unfold l', blen_Z. rewrite length_skipn. lia. }
    assert (Hall' : forall k, Forall (fun pos =>
              isRet (calculateRMSForSegmentOptimized ops seg pos
                       (wrap64 (pos + minSilenceLen))) = true) (firstn k l')).
    { intros k. apply Forall_forall. intros x Hx.
      apply (proj1 (Forall_forall _ _) Hall).
      apply (skipn_In (Z.to_nat start)). fold l'.
      apply (firstn_In k). exact Hx. }
    match goal with |- context [bind ?c _] =>
      assert (Hw : c = Ret (numbered (directSilent ops seg minSilenceLen silThresh) start
                              (firstn (Z.to_nat chunkSize) l'))) end.
    { destruct (blen_Z sliceStarts <? start + chunkSize) eqn:E1.
      - apply Z.ltb_lt in E1.
        destruct (start <? blen_Z sliceStarts) eqn:E2.
        + apply Z.ltb_lt in E2. fold l'.
          replace (firstn (Z.to_nat (blen_Z sliceStarts - start)) l')
            with (firstn (Z.to_nat chunkSize) l')
            by (rewrite !firstn_all2 by lia; reflexivity).
          apply worker_numbered. apply Hall'.
        + apply Z.ltb_ge in E2.
          assert (El : l' = []) by (apply length_zero_iff_nil; lia).
          rewrite El, firstn_nil. reflexivity.
      - apply Z.ltb_ge in E1.
        replace (start <? start + chunkSize) with true by (symmetry; apply Z.ltb_lt; lia).
        fold l'. replace (start + chunkSize - start) with chunkSize by lia.
        apply worker_numbered. apply Hall'. }
    rewrite Hw. cbn [bind].
    destruct (IH (i + 1)) as [others [Ho Hcat]]; [ lia | ].
    rewrite Ho. cbn [bind]. eexists. split; [ reflexivity | ].
    cbn [concat]. rewrite Hcat.
    replace (S n * Z.to_nat chunkSize)%nat
      with (Z.to_nat chunkSize + n * Z.to_nat chunkSize)%nat by lia.
    rewrite firstn_plus, numbered_app.
    unfold l'. rewrite skipn_skipn.
    replace (Z.to_nat chunkSize + Z.to_nat start)%nat
      with (Z.to_nat ((i + 1) * chunkSize)) by (unfold start; nia).
    fold l'. f_equal.
    destruct (Nat.le_gt_cases (Z.to_nat chunkSize) (length l')) as [Hle | Hgt].
    + rewrite length_firstn, Nat.min_l by exact Hle.
      f_equal. unfold start. lia.
    + assert (El : skipn (Z.to_nat ((i + 1) * chunkSize)) sliceStarts = []).
      { apply length_zero_iff_nil. rewrite length_skipn.
        unfold l' in Hgt. rewrite length_skipn in Hgt. unfold start in *. nia. }
      rewrite El, firstn_nil. reflexivity.
Qed.

(** DetectSilenceConcurrent as a filter over the window starts, whatever
    the number of processors and the order of delivery. *)
Lemma DetectSilenceConcurrent_filter (ops : audioop.Package) (vol : volume.Package)
    (numCPU : Z) (schedule : list (list silenceResult) -> list silenceResult)
    (seg : AudioSegment) (minSilenceLen : Z) (silenceThresh : Volume) (seekStep : Z) :
  0 < seekStep -> 0 <= minSilenceLen <= Duration seg ->
  Duration seg + seekStep < 2 ^ 63 ->
  0 < numCPU ->
  (forall sent, Permutation (concat sent) (schedule sent)) ->
  forallb (fun i => isRet (calculateRMSForSegmentOptimized ops seg i (i + minSilenceLen)))
    (windowStarts (Duration seg - minSilenceLen) seekStep) = true ->
  DetectSilenceConcurrent ops vol numCPU schedule seg minSilenceLen silenceThresh seekStep
  = Ret (combineRanges minSilenceLen seekStep
           (filter (directSilent ops seg minSilenceLen (silThreshOf vol seg silenceThresh))
              (windowStarts (Duration seg - minSilenceLen) seekStep))).
Proof.
  intros Hs Hm Hb Hcpu Hsched Hok.
  pose proof (Duration_range seg) as Hr.
  set (lastSliceStart := Duration seg - minSilenceLen) in *.
  assert (Hl : 0 <= lastSliceStart) by (unfold lastSliceStart; lia).
  unfold DetectSilenceConcurrent.
  replace (Duration seg <? minSilenceLen) with false by (symmetry; apply Z.ltb_ge; lia).
  rewrite wrap64_small by lia. fold lastSliceStart.
  rewrite sliceStartsOf_windowStarts by (unfold lastSliceStart; lia).
  cbn [bind].
  set (starts := windowStarts lastSliceStart seekStep) in *.
  assert (Hlen : 1 <= blen_Z starts).
  { unfold starts, windowStarts, blen_Z. rewrite length_app, length_map, length_seq. lia. }
  set (numWorkers := if blen_Z starts <? numCPU then blen_Z starts else numCPU).
  assert (Hnw : 1 <= numWorkers <= blen_Z starts).
  { unfold numWorkers. destruct (blen_Z starts <? numCPU) eqn:E;
      [ apply Z.ltb_lt in E | apply Z.ltb_ge in E ]; lia. }
  replace (numWorkers =? 0) with false by (symmetry; apply Z.eqb_neq; lia).
  set (chunkSize := Z.quot (blen_Z starts + numWorkers - 1) numWorkers).
  assert (Hc : 0 < chunkSize /\ blen_Z starts <= numWorkers * chunkSize).
  { unfold chunkSize. rewrite Z.quot_div_nonneg by lia.
    pose proof (Z.mul_succ_div_gt (blen_Z starts + numWorkers - 1) numWorkers) as G.
    pose proof (Z.div_le_lower_bound (blen_Z starts + numWorkers - 1) numWorkers 1) as L.
    split; [ apply Z.lt_le_trans with 1; [ lia | apply L; lia ] | nia ]. }
  destruct Hc as [Hc Hcover].
  assert (Hall : Forall (fun pos => isRet (calculateRMSForSegmentOptimized ops seg pos
                                             (wrap64 (pos + minSilenceLen))) = true) starts).
  { apply Forall_forall. intros i Hi.
    assert (Hi' := Hi). apply windowStarts_In in Hi'; [ | lia | lia ].
    rewrite wrap64_small by (unfold lastSliceStart in Hi'; lia).
    exact (proj1 (forallb_forall _ _) Hok i Hi). }
  destruct (spawn_numbered ops seg minSilenceLen (silThreshOf vol seg silenceThresh) starts
              chunkSize Hc Hall (Z.to_nat numWorkers) 0) as [sent [Hsp Hcat]]; [ lia | ].
  rewrite Hsp. cbn [bind].
  change (0 * chunkSize) with 0 in Hcat. change (Z.to_nat 0) with 0%nat in Hcat.
  rewrite skipn_O, firstn_all2 in Hcat by (unfold blen_Z in Hcover; nia).
  rewrite (collect_any_order
             (directSilent ops seg minSilenceLen (silThreshOf vol seg silenceThresh)) starts).
  - cbn [bind]. rewrite numbered_silent. reflexivity.
  - rewrite <- Hcat. apply Hsched.
Qed.

(** X16: the concurrent detector does not depend on the scheduling.  With
    at least one processor, and whatever interleaving of the workers'
    messages the channel delivers, DetectSilenceConcurrent returns (for a
    positive step, a minimum length within the duration, positions within
    int64, and windows whose RMS computation returns) one range
    [first start, last start + minSilenceLen] for every run of the window
    starts whose directly computed RMS is at most the threshold, taken in
    the order of the starts: the same list for every number of processors
    and every order of delivery. *)
Theorem DetectSilenceConcurrent_any_schedule (ops : audioop.Package) (vol : volume.Package)
    (numCPU : Z) (schedule : list (list silenceResult) -> list silenceResult)
    (seg : AudioSegment) (minSilenceLen : Z) (silenceThresh : Volume) (seekStep : Z) :
  0 < seekStep -> 0 <= minSilenceLen <= Duration seg ->
  Duration seg + seekStep < 2 ^ 63 ->
  0 < numCPU ->
  (forall sent, Permutation (concat sent) (schedule sent)) ->
  forallb (fun i => isRet (calculateRMSForSegmentOptimized ops seg i (i + minSilenceLen)))
    (windowStarts (Duration seg - minSilenceLen) seekStep) = true ->
  exists runs,
    Runs minSilenceLen seekStep
      (filter (directSilent ops seg minSilenceLen (silThreshOf vol seg silenceThresh))
         (windowStarts (Duration seg - minSilenceLen) seekStep)) runs
    /\ DetectSilenceConcurrent ops vol numCPU schedule seg minSilenceLen silenceThresh seekStep
       = Ret (map (rangeOf minSilenceLen) runs).
Proof.
  intros Hs Hm Hb Hcpu Hsched Hok.
  pose proof (Duration_range seg) as Hr.
  destruct (combineRanges_Runs minSilenceLen seekStep
              (filter (directSilent ops seg minSilenceLen (silThreshOf vol seg silenceThresh))
                 (windowStarts (Duration seg - minSilenceLen) seekStep))) as [runs [HR HC]].
  - apply Forall_forall. intros i Hi. apply filter_In in Hi. destruct Hi as [Hi _].
    apply windowStarts_In in Hi; [ | lia | lia ].
    split; apply wrap64_small; lia.
  - exists runs. split; [ exact HR | ].
    rewrite (DetectSilenceConcurrent_filter ops vol numCPU schedule seg minSilenceLen
               silenceThresh seekStep Hs Hm Hb Hcpu Hsched Hok).
    rewrite HC. reflexivity.
Qed.

(** Delivery in the reverse of the order of sending. *)
Definition lastFirst (sent : list (list silenceResult)) : list silenceResult :=
  rev (concat sent).

Lemma DetectSilenceConcurrent_any_schedule_witness :
  exists runs,
    Runs 1 2 [0; 4; 5] runs
    /\ DetectSilenceConcurrent modelOps (constVolume half) 2 lastFirst quietLoudQuiet 1
         F64.zero 2
       = Ret (map (rangeOf 1) runs).
Proof.
  apply (DetectSilenceConcurrent_any_schedule modelOps (constVolume half) 2 lastFirst
           quietLoudQuiet 1 F64.zero 2).
  - lia.
  - vm_compute. split; discriminate.
  - vm_compute. reflexivity.
  - lia.
  - intros sent. apply Permutation_rev.
  - vm_compute. reflexivity.
Defined.

(** The RMS of no samples, where the package computes one, is 0. *)
Definition emptyRMS (ops : audioop.Package) : Prop :=
  forall w, snd (audioop.RMS ops [] w) = None -> fst (audioop.RMS ops [] w) = F64.zero.

Lemma clampMs_id (seg : AudioSegment) (ms : Z) : ms <= Duration seg -> clampMs seg ms = ms.
Proof.
  intros H. unfold clampMs.
  replace (Duration seg <? ms) with false by (symmetry; apply Z.ltb_ge; lia).
  reflexivity.
Qed.

Lemma sub_empty (bs : list byte) (lo : Z) : sub bs lo lo = [].
Proof. unfold sub. rewrite Z.sub_diag. reflexivity. Qed.

(** On a window inside the audio that Slice can cut, the direct RMS
    computation returns what RMS returns on the slice. *)
Lemma direct_RMS_of_Slice (ops : audioop.Package) (seg : AudioSegment) (i e : Z)
    (s : AudioSegment) :
  nilOnError ops -> emptyRMS ops ->
  sampleWidth seg <> 1 -> sampleWidth seg <> 3 ->
  i <= Duration seg -> e <= Duration seg ->
  Slice ops seg i e = Ret s ->
  calculateRMSForSegmentOptimized ops seg i e = Ret (RMS ops s).
Proof.
  intros Hnil Hempty Hw1 Hw3 Hi He H.
  destruct (Slice_Ret ops seg i e s Hnil Hw3 H) as [_ [Hidx Hs]].
  assert (Hrms : RMS ops s = rmsWide ops s).
  { unfold RMS. replace (sampleWidth s =? 1) with false; [ reflexivity | ].
    symmetry. apply Z.eqb_neq. subst s. exact Hw1. }
  rewrite Hrms.
  assert (Hsi : wrap64 (parsePosition seg i * frameWidth seg) = startIndexOf seg i)
    by (unfold startIndexOf; rewrite clampMs_id by exact Hi; reflexivity).
  assert (Hse : wrap64 (parsePosition seg e * frameWidth seg) = startIndexOf seg e)
    by (unfold startIndexOf; rewrite clampMs_id by exact He; reflexivity).
  unfold calculateRMSForSegmentOptimized. cbv zeta.
  rewrite Hsi, Hse. fold (endIndexOf seg e).
  unfold rmsWide. subst s. cbn [data sampleWidth].
  destruct (endIndexOf seg e <=? startIndexOf seg i) eqn:E.
  - apply Z.leb_le in E.
    replace (endIndexOf seg e) with (startIndexOf seg i) by lia.
    rewrite sub_empty.
    pose proof (Hempty (sampleWidth seg)) as G.
    destruct (audioop.RMS ops [] (sampleWidth seg)) as [r [err | ]]; cbn [fst snd] in G;
      [ reflexivity | rewrite G by reflexivity; reflexivity ].
  - apply Z.leb_gt in E.
    rewrite slice_ok; [ | lia | ].
    + cbn [bind].
      destruct (audioop.RMS ops _ (sampleWidth seg)) as [r [err | ]]; reflexivity.
    + unfold endIndexOf. destruct (blen (data seg) <? startIndexOf seg e) eqn:E';
        [ lia | apply Z.ltb_ge in E'; lia ].
Qed.

Lemma DetectSilence_filter (ops : audioop.Package) (vol : volume.Package)
    (seg : AudioSegment) (minSilenceLen : Z) (silenceThresh : Volume) (seekStep : Z) :
  0 < seekStep -> 0 <= minSilenceLen <= Duration seg ->
  Duration seg + seekStep < 2 ^ 63 ->
  forallb (fun i => isRet (Slice ops seg i (i + minSilenceLen)))
    (windowStarts (Duration seg - minSilenceLen) seekStep) = true ->
  DetectSilence ops vol seg minSilenceLen silenceThresh seekStep
  = Ret (combineRanges minSilenceLen seekStep
           (filter (silentAt ops vol seg minSilenceLen silenceThresh)
              (windowStarts (Duration seg - minSilenceLen) seekStep))).
Proof.
  intros Hs Hm Hb Hok.
  pose proof (Duration_range seg) as Hr.
  unfold DetectSilence.
  replace (Duration seg <? minSilenceLen) with false by (symmetry; apply Z.ltb_ge; lia).
  rewrite wrap64_small by lia.
  rewrite sliceStartsOf_windowStarts by lia.
  cbn [bind]. rewrite filterM_windows; [ reflexivity | | exact Hok ].
  apply Forall_forall. intros i Hi. apply windowStarts_In in Hi; [ | lia | lia ].
  apply wrap64_small; lia.
Qed.

(** X17: the concurrent detector against the sequential one.  For a sample
    width other than 1 and 3, a package that returns nil beside an error
    and 0 for the RMS of no samples, at least one processor and any order
    of delivery: when DetectSilence can slice each of its windows,
    DetectSilenceConcurrent returns the same ranges as DetectSilence. *)
Theorem DetectSilenceConcurrent_agrees (ops : audioop.Package) (vol : volume.Package)
    (numCPU : Z) (schedule : list (list silenceResult) -> list silenceResult)
    (seg : AudioSegment) (minSilenceLen : Z) (silenceThresh : Volume) (seekStep : Z) :
  nilOnError ops -> emptyRMS ops ->
  sampleWidth seg <> 1 -> sampleWidth seg <> 3 ->
  0 < seekStep -> 0 <= minSilenceLen <= Duration seg ->
  Duration seg + seekStep < 2 ^ 63 ->
  0 < numCPU ->
  (forall sent, Permutation (concat sent) (schedule sent)) ->
  forallb (fun i => isRet (Slice ops seg i (i + minSilenceLen)))
    (windowStarts (Duration seg - minSilenceLen) seekStep) = true ->
  DetectSilenceConcurrent ops vol numCPU schedule seg minSilenceLen silenceThresh seekStep
  = DetectSilence ops vol seg minSilenceLen silenceThresh seekStep.
Proof.
  intros Hnil Hempty Hw1 Hw3 Hs Hm Hb Hcpu Hsched Hok.
  pose proof (Duration_range seg) as Hr.
  assert (Hwin : forall i, In i (windowStarts (Duration seg - minSilenceLen) seekStep) ->
            exists s, Slice ops seg i (i + minSilenceLen) = Ret s
                      /\ calculateRMSForSegmentOptimized ops seg i (i + minSilenceLen)
                         = Ret (RMS ops s)).
  { intros i Hi.
    pose proof (proj1 (forallb_forall _ _) Hok i Hi) as Hsl. cbv beta in Hsl.
    apply windowStarts_In in Hi; [ | lia | lia ].
    destruct (Slice ops seg i (i + minSilenceLen)) as [s | | | ] eqn:E; try discriminate.
    exists s. split; [ reflexivity | ].
    apply direct_RMS_of_Slice; try assumption; lia. }
  rewrite DetectSilenceConcurrent_filter; try assumption.
  - rewrite DetectSilence_filter; try assumption.
    f_equal. f_equal. apply filter_ext_in. intros i Hi.
    destruct (Hwin i Hi) as [s [Hsl Hcalc]].
    apply windowStarts_In in Hi; [ | lia | lia ].
    unfold directSilent, silentAt.
    rewrite wrap64_small by lia. rewrite Hsl, Hcalc. reflexivity.
  - apply forallb_forall. intros i Hi.
    destruct (Hwin i Hi) as [s [_ Hcalc]]. rewrite Hcalc. reflexivity.
Qed.

Lemma emptyRMS_model : emptyRMS modelOps.
Proof.
  intros w H. unfold modelOps, audioop_model.package in *. cbn [audioop.RMS] in *.
  unfold audioop_model.RMS, audioop_model.checked in *.
  destruct (audioop_model.checkParameters _ _); [ discriminate | reflexivity ].
Qed.

Lemma DetectSilenceConcurrent_agrees_witness :
  DetectSilenceConcurrent modelOps (constVolume half) 2 lastFirst quietLoudQuiet 1 F64.zero 2
  = DetectSilence modelOps (constVolume half) quietLoudQuiet 1 F64.zero 2.
Proof.
  apply (DetectSilenceConcurrent_agrees modelOps (constVolume half) 2 lastFirst
           quietLoudQuiet 1 F64.zero 2).
  - exact nilOnError_model.
  - exact emptyRMS_model.
  - discriminate.
  - discriminate.
  - lia.
  - vm_compute. split; discriminate.
  - vm_compute. reflexivity.
  - lia.
  - intros sent. apply Permutation_rev.
  - vm_compute. reflexivity.
Defined.
(** Four frames of 8-bit mono silence (the byte 0x80) at 1000 Hz. *)
Definition silent8 : AudioSegment :=
  {| sampleWidth := 1; frameRate := 1000; frameWidth := 1; channels := 1;
     data := [x80; x80; x80; x80] |}.

(** C1 (code bug), at the failing input: on four frames of 8-bit silence,
    with a threshold of half the full scale, DetectSilence finds the one
    silent range [0, 4] (RMS widens an 8-bit segment to 16 bits first, and
    the widened samples are 0), while DetectSilenceConcurrent, whatever the
    number of processors and the order of delivery, finds none: it takes
    the RMS of the bytes as they are, 128 for each window, against the
    threshold 64. *)
Theorem DetectSilenceConcurrent_width1_differs (numCPU : Z)
    (schedule : list (list silenceResult) -> list silenceResult) :
  0 < numCPU ->
  (forall sent, Permutation (concat sent) (schedule sent)) ->
  DetectSilence modelOps (constVolume half) silent8 1 F64.zero 1 = Ret [(0, 4)]
  /\ DetectSilenceConcurrent modelOps (constVolume half) numCPU schedule silent8 1 F64.zero 1
     = Ret [].
Proof.
  intros Hcpu Hsched. split; [ vm_compute; reflexivity | ].
  rewrite DetectSilenceConcurrent_filter;
    [ | lia | vm_compute; split; discriminate | vm_compute; reflexivity | exact Hcpu
      | exact Hsched | vm_compute; reflexivity ].
  vm_compute. reflexivity.
Qed.

Lemma DetectSilenceConcurrent_width1_differs_witness :
  DetectSilence modelOps (constVolume half) silent8 1 F64.zero 1 = Ret [(0, 4)]
  /\ DetectSilenceConcurrent modelOps (constVolume half) 2 lastFirst silent8 1 F64.zero 1
     = Ret [].
Proof.
  apply (DetectSilenceConcurrent_width1_differs 2 lastFirst).
  - lia.
  - intros sent. apply Permutation_rev.
Defined.
